(** * The index update engine of [src/search/search-index/add.js]

    A shallow embedding of the module that folds a pipelined page document
    into the search index: the postings merge ([reduceTermValue]), the
    term, domain and timestamp indexers, the page merge ([indexPage]), the
    orchestration ([performIndexing]), the queued entry points
    ([addPageConcurrent], [addBookmarkConcurrent]) and [addBookmark].

    JavaScript [Set]s of keys are [gset string], [Map]s are [gmap]s.
    Asynchronous functions are trees of store requests ([Task]); running a
    tree against a [World] threads the index, the faults the store is
    going to raise, the requests issued so far and the console. *)

From stdpp Require Import gmap strings list fin_maps pretty.

(** ** Data model *)

(** Timestamps are numbers of milliseconds, as [Date.now()] gives them. *)
Definition Timestamp := N.

(** [IndexLookupDoc]: the document the pipeline hands over, which is also
    the record stored under the page id. *)
Record IndexLookupDoc := mkDoc {
  id : string;
  domain : string;
  terms : gset string;
  urlTerms : gset string;
  titleTerms : gset string;
  visits : gset string;
  bookmarks : gset string;
  latest : Timestamp;
}.

(** The object literal [{ latest: indexDoc.latest }]. *)
Record TermEntry := mkEntry { entryLatest : Timestamp }.

(** [IndexTermValue]: the [Map] from page id to [{ latest }] kept under one
    term or domain key. *)
Abbreviation IndexTermValue := (gmap string TermEntry).

(** ** [reduceTermValue] on [Map] objects

    The function mutates the [Map] it is given, so at this level a [Map]
    is a reference into a heap of objects. *)
Module Heap.

Abbreviation MapRef := positive.
Abbreviation Objects := (gmap positive (gmap string TermEntry)).

(** [new Map([[k, v]])]: a reference no live object has. *)
Definition newMap (k : string) (v : TermEntry) (h : Objects) : MapRef * Objects :=
  let r := fresh (dom h) in (r, <[r := {[k := v]}]> h).

(** [m.set(k, v)]: the object behind [m] changes, [m] does not. *)
Definition mapSet (m : MapRef) (k : string) (v : TermEntry) (h : Objects) : Objects :=
  alter (fun entries => <[k := v]> entries) m h.

Definition reduceTermValue (currTermVal : option MapRef) (indexDoc : IndexLookupDoc)
    (h : Objects) : MapRef * Objects :=
  match currTermVal with
  | None => newMap (id indexDoc) (mkEntry (latest indexDoc)) h
  | Some m => (m, mapSet m (id indexDoc) (mkEntry (latest indexDoc)) h)
  end.

End Heap.

(** What crosses the store boundary is the content of the [Map]: a lookup
    hands out a [Map] nobody else holds and a put writes its content
    back.  The indexers therefore use [reduceTermValue] on contents;
    [reduceTermValue_content] relates it to [Heap.reduceTermValue]. *)
Definition reduceTermValue (currTermVal : option IndexTermValue)
    (indexDoc : IndexLookupDoc) : IndexTermValue :=
  match currTermVal with
  | None => {[ id indexDoc := mkEntry (latest indexDoc) ]}
  | Some m => <[ id indexDoc := mkEntry (latest indexDoc) ]> m
  end.

(** ** The index

    One [index] handle holds three kinds of entries, "as they all live on
    separate indexes" (the comment above [performIndexing]): page records
    under page ids, term values under term, url, title and domain keys,
    and page ids under visit and bookmark keys.  The code tells them
    apart by the key alone.  Here a request carries the kind of value its
    caller takes the key to hold, and [Index] keeps one map per kind: the
    two agree as long as no key is used for two kinds of value
    ([keySpace] and [inRole] below).  On a key that holds a value of
    another kind the code fails on that value with a [TypeError], or
    overwrites it; this index shows neither.  Where a property below
    needs the two to agree, it assumes [inRole] of the keys it touches. *)
Inductive Kind := KPage | KTerm | KMeta.

Definition Val (k : Kind) : Type :=
  match k with
  | KPage => IndexLookupDoc
  | KTerm => IndexTermValue
  | KMeta => string
  end.

Record Index := mkIndex {
  pages : gmap string IndexLookupDoc;
  postings : gmap string IndexTermValue;
  metas : gmap string string;
}.

Definition slot (k : Kind) (i : Index) : gmap string (Val k) :=
  match k with
  | KPage => pages i
  | KTerm => postings i
  | KMeta => metas i
  end.

Definition setSlot (k : Kind) : gmap string (Val k) -> Index -> Index :=
  match k with
  | KPage => fun m i => mkIndex m (postings i) (metas i)
  | KTerm => fun m i => mkIndex (pages i) m (metas i)
  | KMeta => fun m i => mkIndex (pages i) (postings i) m
  end.

(** ** Errors, requests and the world *)

Inductive Error :=
| JsError (message : string)
| TypeError (message : string)
| StoreError
| PipelineError (reason : string).

Inductive ConsoleMsg :=
| ConsoleTime (label : string)
| ConsoleTimeEnd (label : string)
| ConsoleLog (label : string) (doc : IndexLookupDoc)
| ConsoleError (err : Error).

(** The calls an asynchronous function of the module makes, indexed by what
    they answer.  The store is the collaborator behind [index] and
    [./util]; the console and the clock are the runtime's. *)
Inductive Op : Type -> Type :=
| SingleLookup (k : Kind) (key : string) : Op (option (Val k))
| LookupByKeys (k : Kind) (keys : gset string) : Op (gmap string (option (Val k)))
| TermRangeLookup (termKey : string) (keys : gset string)
    : Op (gmap string (option IndexTermValue))
| Put (k : Kind) (key : string) (val : Val k) : Op unit
| BatchCommit (k : Kind) (batch : gmap string (Val k)) : Op unit
| DateNow : Op Timestamp
| Console (msg : ConsoleMsg) : Op unit.

(** A request as the trace records it. *)
Inductive Request :=
| Issued : forall R : Type, Op R -> Request.

Arguments Issued {R} op.

Definition isWrite (r : Request) : bool :=
  match r with
  | Issued (Put _ _ _) | Issued (BatchCommit _ _) => true
  | _ => false
  end.

Record World := mkWorld {
  index : Index;
  faults : list bool;
  trace : list Request;
  console : list ConsoleMsg;
  clock : Timestamp;
}.

(** ** The store behind [index]

    [index] and the helpers of [./util] ([initSingleLookup],
    [initLookupByKeys], [termRangeLookup], [idbBatchToPromise]) are
    imported, not defined, by [add.js]. *)

(** Modelled from the spec: [lookupByKeys], absent from the sources, answers
    every requested key, with nothing for a key the store lacks. *)
Definition lookupAll {V : Type} (m : gmap string V) (keys : gset string)
    : gmap string (option V) :=
  set_to_map (fun key => (key, m !! key)) keys.

(** Modelled from the spec: the scan of [termRangeLookup], absent from the
    sources, visits the keys that share the prefix. *)
Definition rangeScan {V : Type} (prefix : string) (m : gmap string V) : gmap string V :=
  filter (fun entry => String.prefix prefix entry.1 = true) m.

Definition setIndex (i : Index) (w : World) : World :=
  mkWorld i (faults w) (trace w) (console w) (clock w).

(** Modelled from the spec: the store, absent from the sources.  A single
    lookup is a point read; [termRangeLookup] intersects its scan with the
    requested keys; a put writes one key; a batch accumulates puts and
    commits them together, later puts over earlier entries.  The kind of
    a request selects the map it reads or writes, which is what the one
    index of the code does for keys used in one role ([keySpace_lookup],
    [keySpace_put], [keySpace_batch]). *)
Definition answer {R : Type} (op : Op R) : World -> World * R :=
  match op in Op R return World -> World * R with
  | SingleLookup k key => fun w => (w, slot k (index w) !! key)
  | LookupByKeys k keys => fun w => (w, lookupAll (slot k (index w)) keys)
  | TermRangeLookup termKey keys =>
      fun w => (w, lookupAll (rangeScan termKey (postings (index w))) keys)
  | Put k key val =>
      fun w => (setIndex (setSlot k (<[key := val]> (slot k (index w))) (index w)) w, tt)
  | BatchCommit k batch =>
      fun w => (setIndex (setSlot k (batch ∪ slot k (index w)) (index w)) w, tt)
  | DateNow => fun w => (w, clock w)
  | Console msg =>
      fun w => (mkWorld (index w) (faults w) (trace w) (console w ++ [msg]) (clock w), tt)
  end.

Definition isStoreRequest {R : Type} (op : Op R) : bool :=
  match op with
  | DateNow | Console _ => false
  | _ => true
  end.

(** How a call settles. *)
Inductive Outcome (R : Type) :=
| Fulfilled (r : R)
| Failed (e : Error).

Arguments Fulfilled {R} r.
Arguments Failed {R} e.

(** A store request is recorded, then takes the next entry of the fault
    plan: [true] makes the store fail the request and leave the index as
    it is.  A plan that has run out raises nothing. *)
Definition perform {R : Type} (op : Op R) (w : World) : World * Outcome R :=
  if isStoreRequest op then
    let w1 := mkWorld (index w) (tail (faults w)) (trace w ++ [Issued op])
                      (console w) (clock w) in
    match faults w with
    | true :: _ => (w1, Failed StoreError)
    | _ => let '(w2, r) := answer op w1 in (w2, Fulfilled r)
    end
  else
    let '(w2, r) := answer op w in (w2, Fulfilled r).

(** ** Asynchronous functions *)

(** The body of an [async] function up to its next call.  [Starved] is what
    [promiseAll] answers when its bound on requests is too small. *)
Inductive Task (A : Type) : Type :=
| Return (a : A)
| Throw (e : Error)
| Call : forall R : Type, Op R -> (Outcome R -> Task A) -> Task A
| Starved.

Arguments Return {A} a.
Arguments Throw {A} e.
Arguments Call {A R} op k.
Arguments Starved {A}.

Inductive Completion (A : Type) :=
| Resolved (a : A)
| Rejected (e : Error)
| Unfinished.

Arguments Resolved {A} a.
Arguments Rejected {A} e.
Arguments Unfinished {A}.

Fixpoint run {A : Type} (t : Task A) (w : World) : World * Completion A :=
  match t with
  | Return a => (w, Resolved a)
  | Throw e => (w, Rejected e)
  | Call op k => let '(w1, o) := perform op w in run (k o) w1
  | Starved => (w, Unfinished)
  end.

Definition exec {A : Type} (t : Task A) (w : World) : World := (run t w).1.

(** [await]: a call that fails throws where it is awaited. *)
Definition await {R : Type} (op : Op R) : Task R :=
  Call op (fun o => match o with Fulfilled r => Return r | Failed e => Throw e end).

(** A call the runtime answers on the spot: the console, the clock. *)
Definition invoke {R : Type} (op : Op R) : Task R := await op.

Fixpoint bind {A B : Type} (t : Task A) (f : A -> Task B) : Task B :=
  match t with
  | Return a => f a
  | Throw e => Throw e
  | Call op k => Call op (fun o => bind (k o) f)
  | Starved => Starved
  end.

#[export] Instance task_ret : MRet Task := @Return.
#[export] Instance task_bind : MBind Task := fun A B f t => bind t f.

(** [try { body } catch (err) { handler }]. *)
Fixpoint tryCatch {A : Type} (body : Task A) (handler : Error -> Task A) : Task A :=
  match body with
  | Return a => Return a
  | Throw e => handler e
  | Call op k => Call op (fun o => tryCatch (k o) handler)
  | Starved => Starved
  end.

(** ** [Promise.all]

    The branches run one after the other up to their first request, so
    their first requests are issued in the order of the array.  The store
    serves requests in the order they were issued; a branch that is
    answered runs on to its next request, which queues behind the ones
    already waiting.  The promise rejects with the first rejection, yet
    no branch is abandoned: the others go on to issue what they still
    have to.

    A [Task] follows the requests to the last one: the rejection is
    handed on once every branch has ended, and the world [run] returns is
    the one reached then.  In the code the awaiting function goes on at
    the first rejection, while the other branches are still under way.
    [performIndexing] then logs the error and issues no request of its
    own, so its completion, the console and the index reached once the
    branches have ended are the same either way, as long as nothing else
    is sent to the store in between.  The moment at which the caller is
    resumed is not shown. *)
Definition settle (t : Task unit) (st : list (Task unit) * option Error)
    : list (Task unit) * option Error :=
  match t with
  | Return _ => st
  | Throw e => (st.1, match st.2 with None => Some e | Some first => Some first end)
  | _ => (st.1 ++ [t], st.2)
  end.

Fixpoint serve (bound : nat) (waiting : list (Task unit)) (rejection : option Error)
    : Task unit :=
  match waiting with
  | [] => match rejection with None => Return tt | Some e => Throw e end
  | t :: rest =>
      match bound with
      | O => Starved
      | S b =>
          match t with
          | Call op k =>
              Call op (fun o =>
                let st := settle (k o) (rest, rejection) in serve b st.1 st.2)
          | Starved => Starved
          | _ => serve b rest rejection
          end
      end
  end.

Definition promiseAll (bound : nat) (branches : list (Task unit)) : Task unit :=
  let st := foldl (fun st t => settle t st) ([], None) branches in
  serve bound st.1 st.2.

(** ** The queue and the callers' promises *)

Inductive PromiseState :=
| Pending
| Settled (o : Outcome unit).

(** A unit of work on [indexQueue]: the task the pushed closure starts and
    the promise its [.then(resolve).catch(reject)] settles. *)
Record Job := mkJob { jobTask : Task unit; jobPromise : nat }.

Record Runtime := mkRuntime {
  world : World;
  indexQueue : list Job;
  promises : list PromiseState;
}.

(** [resolve] and [reject] act on a pending promise only. *)
Definition settlePromise (p : nat) (o : Outcome unit) (ps : list PromiseState)
    : list PromiseState :=
  match ps !! p with
  | Some Pending => <[p := Settled o]> ps
  | _ => ps
  end.

Definition resolve (p : nat) := settlePromise p (Fulfilled tt).
Definition reject (p : nat) (e : Error) := settlePromise p (Failed e).

(** Modelled from the spec: [indexQueue] is imported; it accepts units of
    work and runs them strictly one at a time, in the order of
    submission. *)
Definition indexQueue_push (job : Job) (rt : Runtime) : Runtime :=
  mkRuntime (world rt) (indexQueue rt ++ [job]) (promises rt).

Definition runJob (rt : Runtime) (job : Job) : Runtime :=
  let '(w, c) := run (jobTask job) (world rt) in
  mkRuntime w (indexQueue rt)
    match c with
    | Resolved _ => resolve (jobPromise job) (promises rt)
    | Rejected e => reject (jobPromise job) e (promises rt)
    | Unfinished => promises rt
    end.

Definition runQueue (rt : Runtime) : Runtime :=
  foldl runJob (mkRuntime (world rt) [] (promises rt)) (indexQueue rt).

(** ** The module [add.js] *)

Section Add.

(** The imports the module is written against: the request type and the
    pipeline of [./pipeline], [augmentIndexLookupDoc] of [./util] and
    [bookmarkKeyPrefix] of [src/bookmarks]. *)
Variable IndexRequest : Type.
Variable pipeline : IndexRequest -> Outcome IndexLookupDoc.
Variable augmentIndexLookupDoc : IndexLookupDoc -> IndexLookupDoc.
Variable bookmarkKeyPrefix : string.

Definition termsSizeLimit : nat := 3000.

Definition put (k : Kind) (key : string) (val : Val k) : Task unit :=
  await (Put k key val).

(** The [for ... of] loops fill a batch from the entries of a lookup. *)
Definition forOf {V B : Type} (entries : gmap string V) (body : string -> V -> B -> B)
    (start : B) : B :=
  map_fold body start entries.

Definition initIndexTerms (termsField : IndexLookupDoc -> gset string) (termKey : string)
    (indexDoc : IndexLookupDoc) : Task unit :=
  let termsSet := termsField indexDoc in
  if decide (size termsSet = 0) then Return tt
  else
    termValuesMap ←
      (if decide (termsSizeLimit < size termsSet)
       then await (TermRangeLookup termKey termsSet)
       else await (LookupByKeys KTerm termsSet));
    let indexBatch :=
      forOf termValuesMap
        (fun term currTermVal batch =>
           let termValue := reduceTermValue currTermVal indexDoc in
           <[term := termValue]> batch) ∅ in
    await (BatchCommit KTerm indexBatch).

Definition indexTerms := initIndexTerms terms "term/".
Definition indexUrlTerms := initIndexTerms urlTerms "url/".
Definition indexTitleTerms := initIndexTerms titleTerms "title/".

Definition indexMetaTimestamps (indexDoc : IndexLookupDoc) : Task unit :=
  timeValuesMap ← await (LookupByKeys KMeta (bookmarks indexDoc ∪ visits indexDoc));
  let indexBatch :=
    forOf (V := option string) timeValuesMap
      (fun timestamp existing batch =>
         if decide (existing ≠ Some (id indexDoc))
         then <[timestamp := id indexDoc]> batch
         else batch) (∅ : gmap string string) in
  await (BatchCommit KMeta indexBatch).

(** The record [indexPage] builds before augmenting it. *)
Definition newIndexDoc (existingDoc : option IndexLookupDoc) (indexDoc : IndexLookupDoc)
    : IndexLookupDoc :=
  match existingDoc with
  | None => indexDoc
  | Some existingDoc =>
      {| id := id indexDoc;
         domain := domain indexDoc;
         urlTerms := urlTerms indexDoc;
         latest := latest indexDoc;
         terms := terms existingDoc ∪ terms indexDoc;
         titleTerms := titleTerms existingDoc ∪ titleTerms indexDoc;
         visits := visits existingDoc ∪ visits indexDoc;
         bookmarks := bookmarks existingDoc ∪ bookmarks indexDoc |}
  end.

Definition indexPage (indexDoc : IndexLookupDoc) : Task IndexLookupDoc :=
  existingDoc ← await (SingleLookup KPage (id indexDoc));
  let augIndexDoc := augmentIndexLookupDoc (newIndexDoc existingDoc indexDoc) in
  await (Put KPage (id indexDoc) augIndexDoc);;
  Return augIndexDoc.

Definition indexDomain (indexDoc : IndexLookupDoc) : Task unit :=
  existingValue ← await (SingleLookup KTerm (domain indexDoc));
  await (Put KTerm (domain indexDoc) (reduceTermValue existingValue indexDoc)).

(** The [try] block of [performIndexing].  Ten requests is what the five
    indexers can issue between them. *)
Definition indexingBody (indexDoc : IndexLookupDoc) : Task unit :=
  invoke (Console (ConsoleTime "indexing page"));;
  augIndexDoc ← indexPage indexDoc;
  promiseAll 10
    [ indexDomain augIndexDoc;
      indexUrlTerms augIndexDoc;
      indexTitleTerms augIndexDoc;
      indexTerms augIndexDoc;
      indexMetaTimestamps augIndexDoc ];;
  invoke (Console (ConsoleTimeEnd "indexing page"));;
  invoke (Console (ConsoleLog "indexed" augIndexDoc)).

(** [performIndexing] is handed a promise: one that rejected, one that
    resolved to nothing ([undefined]), or one that resolved to a
    document. *)
Definition performIndexing (indexDoc : Outcome (option IndexLookupDoc)) : Task unit :=
  match indexDoc with
  | Failed e => Throw e
  | Fulfilled None => Throw (TypeError "Cannot read property 'terms' of undefined")
  | Fulfilled (Some indexDoc) =>
      if decide (size (terms indexDoc) = 0) then Return tt
      else
        tryCatch (indexingBody indexDoc)
                 (fun err => invoke (Console (ConsoleError err)))
  end.

Definition promised (o : Outcome IndexLookupDoc) : Outcome (option IndexLookupDoc) :=
  match o with
  | Fulfilled doc => Fulfilled (Some doc)
  | Failed e => Failed e
  end.

Definition addPage (req : IndexRequest) : Task unit :=
  performIndexing (promised (pipeline req)).

(** [new Promise(...)]: the caller's promise is the next free slot. *)
Definition newPromise (rt : Runtime) : nat * Runtime :=
  (length (promises rt),
   mkRuntime (world rt) (indexQueue rt) (promises rt ++ [Pending])).

(** [pipeline(req).catch(reject)]: a rejection settles the caller's promise
    and leaves a promise of [undefined]. *)
Definition addPageConcurrent (req : IndexRequest) (rt : Runtime) : nat * Runtime :=
  let '(p, rt) := newPromise rt in
  let '(indexDoc, ps) :=
    match pipeline req with
    | Failed e => (Fulfilled None, reject p e (promises rt))
    | Fulfilled doc => (Fulfilled (Some doc), promises rt)
    end in
  (p, indexQueue_push (mkJob (performIndexing indexDoc) p)
        (mkRuntime (world rt) (indexQueue rt) ps)).

(** [timestamp] is the optional argument: left out, it defaults to
    [Date.now()].  It is a number here, which the template literal of the
    bookmark key prints in decimal, as it does for what [Date.now()]
    gives and for every safe integer ([isSafeInteger]).  Larger numbers,
    which the template literal prints rounded or with an exponent, and
    timestamps handed over as strings are not covered: the properties
    that name the bookmark key assume a safe integer. *)
Definition addBookmark (pageId : string) (timestamp : option Timestamp) : Task unit :=
  timestamp ← match timestamp with
              | Some t => Return t
              | None => invoke DateNow
              end;
  reverseIndexDoc ← await (SingleLookup KPage pageId);
  match reverseIndexDoc with
  | None =>
      Throw (JsError
        ("No document exists in reverse page index for the supplied page ID: "
           +:+ pageId))
  | Some reverseIndexDoc =>
      let bookmarkKey := bookmarkKeyPrefix +:+ pretty timestamp in
      await (Put KMeta bookmarkKey pageId);;
      let reverseIndexDoc :=
        {| id := id reverseIndexDoc;
           domain := domain reverseIndexDoc;
           terms := terms reverseIndexDoc;
           urlTerms := urlTerms reverseIndexDoc;
           titleTerms := titleTerms reverseIndexDoc;
           visits := visits reverseIndexDoc;
           bookmarks := bookmarks reverseIndexDoc ∪ {[ bookmarkKey ]};
           latest := latest reverseIndexDoc |} in
      await (Put KPage pageId reverseIndexDoc)
  end.

(** The closure pushed on the queue calls [addBookmark(pageId)]: the
    [timestamp] parameter has no use in the body. *)
Definition addBookmarkConcurrent (pageId : string) (timestamp : option Timestamp)
    (rt : Runtime) : nat * Runtime :=
  let '(p, rt) := newPromise rt in
  (p, indexQueue_push (mkJob (addBookmark pageId None) p) rt).

End Add.

(** ** The shape of an indexer

    Each of the five indexers either returns at once or makes one lookup
    followed by one write computed from what the lookup answered. *)

Definition isLookup {R : Type} (op : Op R) : bool :=
  match op with
  | SingleLookup _ _ | LookupByKeys _ _ | TermRangeLookup _ _ => true
  | _ => false
  end.

(** What the store answers to a request on index [i], and the index it
    leaves. *)
Definition result {R : Type} (op : Op R) (i : Index) : R :=
  (answer op (mkWorld i [] [] [] 0%N)).2.

Definition after {R : Type} (op : Op R) (i : Index) : Index :=
  index (answer op (mkWorld i [] [] [] 0%N)).1.

Record Exchange := mkExchange {
  answerType : Type;
  exRead : Op answerType;
  exWrite : answerType -> Op unit;
}.

Definition exchangeTask (x : Exchange) : Task unit :=
  bind (await (exRead x)) (fun r => await (exWrite x r)).

Definition branchTask (b : option Exchange) : Task unit :=
  match b with
  | None => Return tt
  | Some x => exchangeTask x
  end.

Definition exchanges (bs : list (option Exchange)) : list Exchange :=
  omap (fun b => b) bs.

Definition wellFormed (x : Exchange) : Prop :=
  isLookup (exRead x) = true /\ forall r, isWrite (Issued (exWrite x r)) = true.

(** The write an exchange issues when its lookup was served on [i]. *)
Definition pendingWrite (i : Index) (x : Exchange) : Op unit :=
  exWrite x (result (exRead x) i).

Definition written (i : Index) (writes : list (Op unit)) : Index :=
  foldl (fun i op => after op i) i writes.

Definition domainExchange (doc : IndexLookupDoc) : Exchange :=
  mkExchange _ (SingleLookup KTerm (domain doc))
    (fun existingValue => Put KTerm (domain doc) (reduceTermValue existingValue doc)).

Definition termsExchange (termsField : IndexLookupDoc -> gset string) (termKey : string)
    (doc : IndexLookupDoc) : option Exchange :=
  if decide (size (termsField doc) = 0) then None
  else Some (mkExchange _
    (if decide (termsSizeLimit < size (termsField doc))
     then TermRangeLookup termKey (termsField doc)
     else LookupByKeys KTerm (termsField doc))
    (fun termValuesMap =>
       BatchCommit KTerm
         (forOf termValuesMap
            (fun term currTermVal batch => <[term := reduceTermValue currTermVal doc]> batch)
            ∅))).

Definition metaExchange (doc : IndexLookupDoc) : Exchange :=
  mkExchange _ (LookupByKeys KMeta (bookmarks doc ∪ visits doc))
    (fun timeValuesMap =>
       BatchCommit KMeta
         (forOf (V := option string) timeValuesMap
            (fun timestamp existing batch =>
               if decide (existing ≠ Some (id doc))
               then <[timestamp := id doc]> batch
               else batch) (∅ : gmap string string))).

(** ** The index after a pass *)

(** What a term indexer is answered for its keys. *)
Definition termView (termKey : string) (keys : gset string)
    (post : gmap string IndexTermValue) : gmap string (option IndexTermValue) :=
  if decide (termsSizeLimit < size keys)
  then lookupAll (rangeScan termKey post) keys
  else lookupAll post keys.

(** Whether the lookup of a term indexer can see what is stored under [k]:
    a range lookup sees the keys with its prefix only. *)
Definition seen (termKey : string) (keys : gset string) (k : string) : bool :=
  if decide (termsSizeLimit < size keys) then String.prefix termKey k else true.

Definition termBatch (termsField : IndexLookupDoc -> gset string) (termKey : string)
    (doc : IndexLookupDoc) (post : gmap string IndexTermValue) : gmap string IndexTermValue :=
  (fun cur => reduceTermValue cur doc) <$> termView termKey (termsField doc) post.

Definition metaBatch (doc : IndexLookupDoc) (m : gmap string string) : gmap string string :=
  forOf (V := option string) (lookupAll m (bookmarks doc ∪ visits doc))
    (fun timestamp existing batch =>
       if decide (existing ≠ Some (id doc))
       then <[timestamp := id doc]> batch
       else batch) (∅ : gmap string string).

(** The writes land in the order domain, url terms, title terms, terms. *)
Definition postingsAfter (doc : IndexLookupDoc) (post : gmap string IndexTermValue)
    : gmap string IndexTermValue :=
  termBatch terms "term/" doc post
  ∪ (termBatch titleTerms "title/" doc post
     ∪ (termBatch urlTerms "url/" doc post
        ∪ <[domain doc := reduceTermValue (post !! domain doc) doc]> post)).

Definition metasAfter (doc : IndexLookupDoc) (m : gmap string string) : gmap string string :=
  metaBatch doc m ∪ m.

Definition indexed (doc : IndexLookupDoc) (i : Index) : Index :=
  mkIndex (pages i) (postingsAfter doc (postings i)) (metasAfter doc (metas i)).

Definition withPage (doc : IndexLookupDoc) (key : string) (i : Index) : Index :=
  mkIndex (<[key := doc]> (pages i)) (postings i) (metas i).


(** ** Bounded tasks

    [within n t]: the task [t] makes at most [n] calls on every path and
    never answers [Starved]. *)
Fixpoint within {A : Type} (n : nat) (t : Task A) {struct t} : Prop :=
  match t with
  | Return _ | Throw _ => True
  | Starved => False
  | Call op k =>
      match n with
      | O => False
      | S m => forall o, within m (k o)
      end
  end.

Definition isCall {A : Type} (t : Task A) : Prop :=
  match t with
  | Call _ _ => True
  | _ => False
  end.


(** The error [addBookmark] throws for a page id without a record. *)
Definition notFound (pageId : string) : Error :=
  JsError ("No document exists in reverse page index for the supplied page ID: "
             +:+ pageId).

(** ** Fault plans

    Helpers to say which requests of a run the store fails. *)

(** The next request is failed. *)
Definition struck (fs : list bool) : bool :=
  match fs with
  | true :: _ => true
  | _ => false
  end.

(** Of [xs], issued one after the other under the plan [fs], those whose
    request is not failed. *)
Fixpoint spared {A : Type} (fs : list bool) (xs : list A) : list A :=
  match xs with
  | [] => []
  | x :: rest => if struck fs then spared (tail fs) rest else x :: spared (tail fs) rest
  end.

(** One of the next [n] requests is failed. *)
Fixpoint anyStruck (fs : list bool) (n : nat) : bool :=
  match n with
  | O => false
  | S m => struck fs || anyStruck (tail fs) m
  end.


(** The rejection [Promise.all] holds once failed requests came on top of
    an earlier one, and how the promise settles on it. *)
Definition rejectedBy (rejection : option Error) (hit : bool) : option Error :=
  match rejection with
  | Some e => Some e
  | None => if hit then Some StoreError else None
  end.

Definition settled (rejection : option Error) : Completion unit :=
  match rejection with
  | None => Resolved tt
  | Some e => Rejected e
  end.

(** The same world with a store that raises no fault. *)
Definition calm (w : World) : World :=
  mkWorld (index w) [] (trace w) (console w) (clock w).

(** A run that either went through as on a store without faults, or was
    rejected by the store and left the index alone. *)
Definition allOrNothing (t : Task unit) (w : World) : Prop :=
  let '(w', c) := run t w in
  (c = Resolved tt /\ index w' = index (exec t (calm w)))
  \/ (c = Rejected StoreError /\ index w' = index w).

(** The array [performIndexing] hands to [Promise.all], and the shape of
    its elements. *)
Definition indexers (doc : IndexLookupDoc) : list (Task unit) :=
  [ indexDomain doc; indexUrlTerms doc; indexTitleTerms doc; indexTerms doc;
    indexMetaTimestamps doc ].

Definition indexerBranches (doc : IndexLookupDoc) : list (option Exchange) :=
  [ Some (domainExchange doc); termsExchange urlTerms "url/" doc;
    termsExchange titleTerms "title/" doc; termsExchange terms "term/" doc;
    Some (metaExchange doc) ].

(** The keys a pass posts a document under. *)
Definition postingKeys (doc : IndexLookupDoc) : gset string :=
  terms doc ∪ titleTerms doc ∪ urlTerms doc ∪ {[ domain doc ]}.

(** The record after [reverseIndexDoc.bookmarks.add(bookmarkKey)]. *)
Definition bookmarked (doc : IndexLookupDoc) (bookmarkKey : string) : IndexLookupDoc :=
  mkDoc (id doc) (domain doc) (terms doc) (urlTerms doc) (titleTerms doc) (visits doc)
        (bookmarks doc ∪ {[ bookmarkKey ]}) (latest doc).

(** ** Keys and what they hold

    [add.js] reads and writes one [index] by key alone.  The three maps
    of [Index] stand for that one store as long as no key holds values of
    two kinds. *)

(** What the one index can hold under a key. *)
Inductive Value :=
| PageRecord (doc : IndexLookupDoc)
| TermValue (value : IndexTermValue)
| PageId (pageId : string).

Definition toValue (k : Kind) : Val k -> Value :=
  match k with
  | KPage => PageRecord
  | KTerm => TermValue
  | KMeta => PageId
  end.

(** The index as [singleLookup] and [index.put] see it. *)
Definition keySpace (i : Index) : gmap string Value :=
  (PageRecord <$> pages i) ∪ ((TermValue <$> postings i) ∪ (PageId <$> metas i)).

(** The keys under which a value of another kind than [k] is stored. *)
Definition others (k : Kind) (i : Index) : gset string :=
  match k with
  | KPage => dom (postings i) ∪ dom (metas i)
  | KTerm => dom (pages i) ∪ dom (metas i)
  | KMeta => dom (pages i) ∪ dom (postings i)
  end.

(** [keys] hold values of kind [k], if any. *)
Definition inRole (k : Kind) (keys : gset string) (i : Index) : Prop :=
  keys ## others k i.

(** The keys [indexMetaTimestamps] looks up. *)
Definition timeKeys (doc : IndexLookupDoc) : gset string := bookmarks doc ∪ visits doc.

(** The keys a pass over the record [doc], stored under [pageKey], reads
    and writes have one role each.  Within the record: the page key is
    neither a posting key nor a visit or bookmark key, and no posting key
    is a visit or bookmark key.  In the index: what is stored under the
    page key is a page record, under the posting keys term values, under
    the visit and bookmark keys page ids. *)
Definition separated (pageKey : string) (doc : IndexLookupDoc) (i : Index) : Prop :=
  (pageKey ∉ postingKeys doc ∪ timeKeys doc)
  /\ (postingKeys doc ## timeKeys doc)
  /\ inRole KPage {[ pageKey ]} i
  /\ inRole KTerm (postingKeys doc) i
  /\ inRole KMeta (timeKeys doc) i.

(** The same for the two keys [addBookmark] writes. *)
Definition bookmarkSeparated (pageId bookmarkKey : string) (i : Index) : Prop :=
  pageId ≠ bookmarkKey
  /\ inRole KPage {[ pageId ]} i
  /\ inRole KMeta {[ bookmarkKey ]} i.

#[export] Instance inRole_dec (k : Kind) (keys : gset string) (i : Index) :
  Decision (inRole k keys i).
Proof. unfold inRole. apply _. Defined.

#[export] Instance separated_dec (pageKey : string) (doc : IndexLookupDoc) (i : Index) :
  Decision (separated pageKey doc i).
Proof. unfold separated. apply _. Defined.

#[export] Instance bookmarkSeparated_dec (pageId bookmarkKey : string) (i : Index) :
  Decision (bookmarkSeparated pageId bookmarkKey i).
Proof. unfold bookmarkSeparated. apply _. Defined.

(** [Number.isSafeInteger] on a natural number: the integers a JavaScript
    number holds exactly, which a template literal prints digit by
    digit. *)
Definition isSafeInteger (n : N) : Prop := (n <= 9007199254740991)%N.

(** ** [latest] as the augmentation derives it *)




(** ** Sample inputs

    A small index and a few documents to run the module on. *)

(** An augmentation that hands the record back as it is: a stand-in for
    running the functions that take the augmentation as a parameter,
    where what it derives plays no part. *)
Definition noAugment (doc : IndexLookupDoc) : IndexLookupDoc := doc.




Definition pageA : IndexLookupDoc :=
  mkDoc "page/a" "domain/example.com" {[ "term/foo"; "term/bar" ]} {[ "url/example" ]}
        {[ "title/foo" ]} {[ "visit/100" ]} ∅ 100%N.

Definition pageA_older : IndexLookupDoc :=
  mkDoc "page/a" "domain/example.com" {[ "term/bar"; "term/baz" ]} ∅
        {[ "title/baz" ]} {[ "visit/50" ]} ∅ 50%N.

Definition pageNoTerms : IndexLookupDoc :=
  mkDoc "page/b" "domain/example.org" ∅ {[ "url/b" ]} {[ "title/b" ]}
        {[ "visit/7" ]} {[ "bookmark/8" ]} 8%N.

Definition emptyIndex : Index := mkIndex ∅ ∅ ∅.

(** A world whose store raises no fault. *)
Definition boot (i : Index) (now : Timestamp) : World := mkWorld i [] [] [] now.

Definition indexWithA : Index :=
  mkIndex {[ "page/a" := pageA ]} {[ "term/foo" := {[ "page/z" := mkEntry 1%N ]} ]} ∅.

Definition someObjects : Heap.Objects :=
  {[ 1%positive := {[ "page/z" := mkEntry 1%N ]} ]}.

Definition idle (w : World) : Runtime := mkRuntime w [] [].

Definition rejectingPipeline (req : string) : Outcome IndexLookupDoc :=
  Failed (PipelineError req).


Definition pageB : IndexLookupDoc :=
  mkDoc "page/b" "domain/example.org" {[ "term/bar"; "term/qux" ]} {[ "url/b" ]}
        ∅ {[ "visit/200" ]} ∅ 200%N.

Definition twoPages (req : bool) : Outcome IndexLookupDoc :=
  Fulfilled (if req then pageA else pageB).

(** * Properties *)

(** Closes a decidable goal on concrete data by evaluation. *)
Ltac decided := apply (bool_decide_unpack _); vm_compute; reflexivity.

(** ** One key space *)

Lemma union_lookup_batch {V : Type} (batch m : gmap string V) (k : string) :
  (batch ∪ m) !! k = match batch !! k with Some v => Some v | None => m !! k end.
Proof.
  rewrite lookup_union. destruct (batch !! k), (m !! k); reflexivity.
Qed.

Lemma keySpace_lookup_all (i : Index) (key : string) :
  keySpace i !! key
  = match pages i !! key with
    | Some doc => Some (PageRecord doc)
    | None =>
        match postings i !! key with
        | Some value => Some (TermValue value)
        | None => PageId <$> metas i !! key
        end
    end.
Proof.
  unfold keySpace. rewrite !union_lookup_batch, !lookup_fmap.
  by destruct (pages i !! key), (postings i !! key).
Qed.

Lemma others_free (k : Kind) (key : string) (i : Index) :
  key ∉ others k i ->
  match k with
  | KPage => postings i !! key = None /\ metas i !! key = None
  | KTerm => pages i !! key = None /\ metas i !! key = None
  | KMeta => pages i !! key = None /\ postings i !! key = None
  end.
Proof.
  destruct k; cbn [others]; rewrite not_elem_of_union, !not_elem_of_dom; done.
Qed.

(** Under a key used for one kind of value, a lookup of that kind answers
    what the one index holds under the key. *)
Lemma keySpace_lookup (k : Kind) (key : string) (i : Index) :
  key ∉ others k i ->
  keySpace i !! key = toValue k <$> result (SingleLookup k key) i.
Proof.
  intros Hfree. apply others_free in Hfree. rewrite keySpace_lookup_all.
  destruct k; cbn [result answer snd index slot toValue Val] in *;
    destruct Hfree as [-> ->]; try done.
Qed.

(** A put of that kind is a put into the one index. *)
Lemma keySpace_put (k : Kind) (key : string) (val : Val k) (i : Index) :
  key ∉ others k i ->
  keySpace (after (Put k key val) i) = <[key := toValue k val]> (keySpace i).
Proof.
  intros Hfree. apply others_free in Hfree. apply map_eq. intros j.
  rewrite keySpace_lookup_all.
  destruct (decide (j = key)) as [->|Hne].
  - rewrite lookup_insert_eq.
    destruct k;
      cbn [after answer fst index slot setSlot setIndex pages postings metas toValue Val] in *;
      destruct Hfree as [H1 H2]; rewrite ?lookup_insert_eq, ?H1, ?H2; done.
  - rewrite lookup_insert_ne by done. rewrite keySpace_lookup_all.
    destruct k;
      cbn [after answer fst index slot setSlot setIndex pages postings metas toValue Val];
      by rewrite lookup_insert_ne.
Qed.

(** So is the commit of a batch over such keys. *)
Lemma keySpace_batch (k : Kind) (batch : gmap string (Val k)) (i : Index) :
  dom batch ## others k i ->
  keySpace (after (BatchCommit k batch) i) = (toValue k <$> batch) ∪ keySpace i.
Proof.
  intros Hfree. apply map_eq. intros j.
  rewrite union_lookup_batch, lookup_fmap, !keySpace_lookup_all.
  destruct (batch !! j) as [v|] eqn:Hj.
  - assert (Hin : j ∉ others k i).
    { intros Hin. apply (Hfree j); [|done]. apply elem_of_dom. by eexists. }
    apply others_free in Hin.
    destruct k;
      cbn [after answer fst index slot setSlot setIndex pages postings metas toValue Val] in *;
      destruct Hin as [H1 H2]; rewrite ?union_lookup_batch, ?Hj, ?H1, ?H2; done.
  - destruct k;
      cbn [after answer fst index slot setSlot setIndex pages postings metas toValue Val
           fmap option_fmap option_map] in *;
      rewrite ?union_lookup_batch, ?Hj; done.
Qed.

(** Nothing is stored under a key when none of the three maps has it. *)
Lemma keySpace_None (i : Index) (key : string) :
  keySpace i !! key = None
  <-> pages i !! key = None /\ postings i !! key = None /\ metas i !! key = None.
Proof.
  rewrite keySpace_lookup_all.
  destruct (pages i !! key), (postings i !! key), (metas i !! key); simpl;
    split; try done; intros (? & ? & ?); done.
Qed.

(** ** The postings merge *)

Lemma reduceTermValue_lookup_id (cur : option IndexTermValue) (doc : IndexLookupDoc) :
  reduceTermValue cur doc !! id doc = Some (mkEntry (latest doc)).
Proof.
  destruct cur as [m|]; simpl.
  - apply lookup_insert_eq.
  - apply lookup_singleton_eq.
Qed.

Lemma reduceTermValue_lookup_other (m : IndexTermValue) (doc : IndexLookupDoc)
    (other : string) :
  other ≠ id doc -> reduceTermValue (Some m) doc !! other = m !! other.
Proof. intros Hne. simpl. by rewrite lookup_insert_ne. Qed.

(** Merging a document into a value that already went through the merge
    changes nothing. *)
Lemma reduceTermValue_again (cur : option IndexTermValue) (doc : IndexLookupDoc) :
  reduceTermValue (Some (reduceTermValue cur doc)) doc = reduceTermValue cur doc.
Proof.
  apply insert_id, reduceTermValue_lookup_id.
Qed.

(** The content of the returned object is what [reduceTermValue] computes
    from the content of the given one. *)
Lemma reduceTermValue_content (cur : option Heap.MapRef) (doc : IndexLookupDoc)
    (h : Heap.Objects) :
  (forall m, cur = Some m -> is_Some (h !! m)) ->
  (Heap.reduceTermValue cur doc h).2 !! (Heap.reduceTermValue cur doc h).1
  = Some (reduceTermValue (cur ≫= fun m => h !! m) doc).
Proof.
  intros Hlive. destruct cur as [m|]; simpl.
  - destruct (Hlive m eq_refl) as [entries Hm].
    unfold Heap.mapSet. rewrite lookup_alter_eq, Hm. done.
  - apply lookup_insert_eq.
Qed.

(** C1. On an absent entry [reduceTermValue] returns a new [Map] whose only
    entry maps the document's id to its [{ latest }]; on a [Map] it
    returns that very [Map], now mapping the document's id to its
    [{ latest }] with the entries of all other ids as they were.  No other
    object changes in either case. *)
Theorem reduceTermValue_merges (indexDoc : IndexLookupDoc) (h : Heap.Objects) :
  (let '(r, h') := Heap.reduceTermValue None indexDoc h in
   h !! r = None
   /\ h' !! r = Some {[ id indexDoc := mkEntry (latest indexDoc) ]}
   /\ forall r', r' ≠ r -> h' !! r' = h !! r')
  /\
  (forall (m : Heap.MapRef) (entries : IndexTermValue),
     h !! m = Some entries ->
     let '(r, h') := Heap.reduceTermValue (Some m) indexDoc h in
     r = m
     /\ (exists entries',
           h' !! m = Some entries'
           /\ entries' !! id indexDoc = Some (mkEntry (latest indexDoc))
           /\ forall other, other ≠ id indexDoc -> entries' !! other = entries !! other)
     /\ forall r', r' ≠ m -> h' !! r' = h !! r').
Proof.
  split.
  - simpl. split; [|split].
    + apply not_elem_of_dom, is_fresh.
    + apply lookup_insert_eq.
    + intros r' Hne. by rewrite lookup_insert_ne.
  - intros m entries Hm. simpl. split; [done|]. split.
    + exists (<[ id indexDoc := mkEntry (latest indexDoc) ]> entries).
      unfold Heap.mapSet. rewrite lookup_alter_eq, Hm. simpl.
      split; [done|]. split.
      * apply lookup_insert_eq.
      * intros other Hne. by rewrite lookup_insert_ne.
    + intros r' Hne. unfold Heap.mapSet. by rewrite lookup_alter_ne.
Qed.

Lemma reduceTermValue_merges_witness :
  someObjects !! 1%positive = Some ({[ "page/z" := mkEntry 1%N ]} : IndexTermValue)
  /\ let '(r, h') := Heap.reduceTermValue (Some 1%positive) pageA someObjects in
     r = 1%positive
     /\ (exists entries',
           h' !! 1%positive = Some entries'
           /\ entries' !! id pageA = Some (mkEntry (latest pageA))
           /\ forall other, other ≠ id pageA ->
                entries' !! other
                = ({[ "page/z" := mkEntry 1%N ]} : IndexTermValue) !! other)
     /\ forall r', r' ≠ 1%positive -> h' !! r' = someObjects !! r'.
Proof.
  split; [reflexivity|].
  apply (proj2 (reduceTermValue_merges pageA someObjects) 1%positive).
  reflexivity.
Defined.

(** ** Running tasks *)

Lemma run_bind {A B : Type} (t : Task A) (f : A -> Task B) (w : World) :
  run (bind t f) w =
  match run t w with
  | (w1, Resolved a) => run (f a) w1
  | (w1, Rejected e) => (w1, Rejected e)
  | (w1, Unfinished) => (w1, Unfinished)
  end.
Proof.
  revert w. induction t as [a|e|R op k IH|]; intros w; simpl; try done.
  destruct (perform op w) as [w1 o]. apply IH.
Qed.

Lemma run_tryCatch {A : Type} (t : Task A) (h : Error -> Task A) (w : World) :
  run (tryCatch t h) w =
  match run t w with
  | (w1, Rejected e) => run (h e) w1
  | other => other
  end.
Proof.
  revert w. induction t as [a|e|R op k IH|]; intros w; simpl; try done.
  destruct (perform op w) as [w1 o]. apply IH.
Qed.

(** A store that raises no fault goes on raising none. *)
Lemma perform_faults {R : Type} (op : Op R) (w : World) :
  faults w = [] -> faults (perform op w).1 = [].
Proof.
  intros Hq. destruct w as [i fs tr co cl]; simpl in *; subst fs.
  destruct op; reflexivity.
Qed.

Lemma run_faults {A : Type} (t : Task A) (w : World) :
  faults w = [] -> faults (run t w).1 = [].
Proof.
  revert w. induction t as [a|e|R op k IH|]; intros w Hq; simpl; try done.
  pose proof (perform_faults op w Hq) as Hp.
  destruct (perform op w) as [w1 o]. by apply IH.
Qed.

Ltac quiet_world w :=
  let i := fresh "i" in
  let fs := fresh "fs" in
  let tr := fresh "tr" in
  let co := fresh "co" in
  let cl := fresh "cl" in
  destruct w as [i fs tr co cl]; simpl in *; subst fs.

(** ** The empty document *)

Lemma performIndexing_returns (augment : IndexLookupDoc -> IndexLookupDoc)
    (indexDoc : IndexLookupDoc) (w : World) :
  size (terms indexDoc) = 0 ->
  run (performIndexing augment (Fulfilled (Some indexDoc))) w = (w, Resolved tt).
Proof. intros Hsize. unfold performIndexing. by rewrite decide_True. Qed.

(** C7. A document without terms makes [performIndexing] return at once:
    the world, and with it the index and the list of requests issued, is
    the one it started from, whatever the other fields hold. *)
Theorem performIndexing_skips_empty
    (augment : IndexLookupDoc -> IndexLookupDoc) (indexDoc : IndexLookupDoc) (w : World) :
  terms indexDoc = ∅ ->
  run (performIndexing augment (Fulfilled (Some indexDoc))) w = (w, Resolved tt).
Proof.
  intros Hempty. apply performIndexing_returns. rewrite Hempty. apply size_empty.
Qed.

Lemma performIndexing_skips_empty_witness :
  terms pageNoTerms = ∅
  /\ run (performIndexing noAugment (Fulfilled (Some pageNoTerms))) (boot indexWithA 9%N)
     = (boot indexWithA 9%N, Resolved tt).
Proof.
  split; [reflexivity|].
  apply (performIndexing_skips_empty noAugment pageNoTerms (boot indexWithA 9%N)).
  reflexivity.
Defined.

(** ** Attaching a bookmark *)

(** C8. With nothing stored under [pageId], [addBookmark] issues its lookup
    and nothing else: the index is untouched and the call is rejected,
    with the "no document" error as soon as the store answers the lookup.
    With a record under [pageId], that error is never raised. *)
Theorem addBookmark_requires_page (prefix pageId : string)
    (timestamp : option Timestamp) (w : World) :
  (keySpace (index w) !! pageId = None ->
   let '(w', c) := run (addBookmark prefix pageId timestamp) w in
   index w' = index w
   /\ trace w' = trace w ++ [Issued (SingleLookup KPage pageId)]
   /\ c = match faults w with
          | true :: _ => Rejected StoreError
          | _ => Rejected (notFound pageId)
          end)
  /\
  (is_Some (pages (index w) !! pageId) ->
   forall ofPage, (run (addBookmark prefix pageId timestamp) w).2 ≠ Rejected (notFound ofPage)).
Proof.
  destruct w as [i fs tr co cl]. split.
  - cbn [index faults trace]. intros Hnone.
    apply keySpace_None in Hnone as (Hnone & _ & _).
    destruct timestamp as [t|]; destruct fs as [|[|] fs]; simpl; rewrite ?Hnone; done.
  - simpl. intros [doc Hdoc] ofPage.
    destruct timestamp as [t|]; destruct fs as [|[|] [|[|] [|[|] fs]]];
      simpl; rewrite ?Hdoc; simpl; done.
Qed.

Lemma addBookmark_requires_page_witness :
  keySpace (index (boot indexWithA 9%N)) !! "page/none" = None
  /\ let '(w', c) := run (addBookmark "bookmark/" "page/none" (Some 42%N))
                         (boot indexWithA 9%N) in
     index w' = indexWithA
     /\ trace w' = [Issued (SingleLookup KPage "page/none")]
     /\ c = Rejected (notFound "page/none").
Proof.
  split; [reflexivity|].
  apply (proj1 (addBookmark_requires_page "bookmark/" "page/none" (Some 42%N)
                  (boot indexWithA 9%N))).
  reflexivity.
Defined.

Lemma index_eq (i j : Index) :
  pages i = pages j -> postings i = postings j -> metas i = metas j -> i = j.
Proof. destruct i, j; simpl; congruence. Qed.

(** What [reverseIndexDoc.bookmarks.add(bookmarkKey)] leaves in the record. *)
Lemma addBookmark_run (prefix pageId : string) (t : Timestamp) (w : World)
    (doc : IndexLookupDoc) :
  faults w = [] ->
  pages (index w) !! pageId = Some doc ->
  exists w',
    run (addBookmark prefix pageId (Some t)) w = (w', Resolved tt)
    /\ faults w' = []
    /\ postings (index w') = postings (index w)
    /\ metas (index w') = <[prefix +:+ pretty t := pageId]> (metas (index w))
    /\ pages (index w')
       = <[pageId := mkDoc (id doc) (domain doc) (terms doc) (urlTerms doc)
                           (titleTerms doc) (visits doc)
                           (bookmarks doc ∪ {[ prefix +:+ pretty t ]}) (latest doc)]>
           (pages (index w)).
Proof.
  intros Hq Hdoc. quiet_world w. eexists. split.
  - unfold addBookmark. simpl. rewrite Hdoc. simpl. reflexivity.
  - simpl. done.
Qed.

(** C10. With a record under [pageId], a timestamp the bookmark key prints
    in decimal, and the page id and the bookmark key used in one role
    each, a second [addBookmark] with the same timestamp leaves the index
    as the first one left it: the bookmark key still maps to [pageId] and
    the record's bookmarks are the old ones and the key, once. *)
Theorem addBookmark_twice (prefix pageId : string) (t : Timestamp) (w : World)
    (doc : IndexLookupDoc) :
  faults w = [] ->
  pages (index w) !! pageId = Some doc ->
  isSafeInteger t ->
  let bookmarkKey := prefix +:+ pretty t in
  bookmarkSeparated pageId bookmarkKey (index w) ->
  let once := exec (addBookmark prefix pageId (Some t)) w in
  let twice := exec (addBookmark prefix pageId (Some t)) once in
  index twice = index once
  /\ metas (index once) !! bookmarkKey = Some pageId
  /\ metas (index twice) !! bookmarkKey = Some pageId
  /\ bookmarks <$> pages (index once) !! pageId = Some (bookmarks doc ∪ {[ bookmarkKey ]})
  /\ bookmarks <$> pages (index twice) !! pageId = Some (bookmarks doc ∪ {[ bookmarkKey ]})
  /\ size (bookmarks doc ∪ {[ bookmarkKey ]}) <= S (size (bookmarks doc)).
Proof.
  intros Hq Hdoc _ bookmarkKey _ once twice.
  destruct (addBookmark_run prefix pageId t w doc Hq Hdoc)
    as (w1 & Hrun1 & Hq1 & Hpost1 & Hmeta1 & Hpages1).
  assert (Hdoc1 : pages (index w1) !! pageId
                  = Some (mkDoc (id doc) (domain doc) (terms doc) (urlTerms doc)
                            (titleTerms doc) (visits doc)
                            (bookmarks doc ∪ {[ bookmarkKey ]}) (latest doc))).
  { rewrite Hpages1. apply lookup_insert_eq. }
  destruct (addBookmark_run prefix pageId t w1 _ Hq1 Hdoc1)
    as (w2 & Hrun2 & Hq2 & Hpost2 & Hmeta2 & Hpages2).
  assert (Honce : once = w1) by (unfold once, exec; by rewrite Hrun1).
  assert (Htwice : twice = w2) by (unfold twice, exec; by rewrite Honce, Hrun2).
  simpl in Hpages2. subst bookmarkKey.
  assert (Hsame : bookmarks doc ∪ {[prefix +:+ pretty t]} ∪ {[prefix +:+ pretty t]}
                  = bookmarks doc ∪ {[prefix +:+ pretty t]})
    by (by rewrite <- (assoc_L (∪)), (idemp_L (∪))).
  rewrite Hsame in Hpages2.
  rewrite Hpages1, insert_insert_eq in Hpages2.
  rewrite Hmeta1, insert_insert_eq in Hmeta2.
  rewrite Honce, Htwice. repeat split.
  - apply index_eq; congruence.
  - rewrite Hmeta1. apply lookup_insert_eq.
  - rewrite Hmeta2. apply lookup_insert_eq.
  - by rewrite Hdoc1.
  - rewrite Hpages2, lookup_insert_eq. done.
  - set (key := prefix +:+ pretty t). rewrite size_union_alt.
    assert (Hsub : {[key]} ∖ bookmarks doc ⊆ ({[key]} : gset string))
      by (by apply subseteq_difference_l).
    apply subseteq_size in Hsub. rewrite size_singleton in Hsub. lia.
Qed.

Lemma addBookmark_twice_witness :
  let w := boot indexWithA 9%N in
  let once := exec (addBookmark "bookmark/" "page/a" (Some 42%N)) w in
  let twice := exec (addBookmark "bookmark/" "page/a" (Some 42%N)) once in
  isSafeInteger 42
  /\ bookmarkSeparated "page/a" "bookmark/42" (index w)
  /\ index twice = index once
  /\ metas (index once) !! "bookmark/42" = Some "page/a"
  /\ metas (index twice) !! "bookmark/42" = Some "page/a"
  /\ bookmarks <$> pages (index once) !! "page/a" = Some (bookmarks pageA ∪ {[ "bookmark/42" ]})
  /\ bookmarks <$> pages (index twice) !! "page/a" = Some (bookmarks pageA ∪ {[ "bookmark/42" ]})
  /\ size (bookmarks pageA ∪ {[ "bookmark/42" ]}) <= S (size (bookmarks pageA)).
Proof.
  intros w once twice.
  assert (Hsafe : isSafeInteger 42) by (by vm_compute).
  assert (Hkeys : bookmarkSeparated "page/a" "bookmark/42" (index w)) by decided.
  split; [exact Hsafe|]. split; [exact Hkeys|].
  exact (addBookmark_twice "bookmark/" "page/a" 42%N w pageA eq_refl eq_refl Hsafe Hkeys).
Defined.

(** ** The page merge *)

Lemma indexPage_run (augment : IndexLookupDoc -> IndexLookupDoc) (indexDoc : IndexLookupDoc)
    (w : World) :
  faults w = [] ->
  let augIndexDoc := augment (newIndexDoc (pages (index w) !! id indexDoc) indexDoc) in
  run (indexPage augment indexDoc) w
  = (mkWorld
       (mkIndex (<[id indexDoc := augIndexDoc]> (pages (index w)))
                (postings (index w)) (metas (index w)))
       []
       (trace w ++ [Issued (SingleLookup KPage (id indexDoc));
                    Issued (Put KPage (id indexDoc) augIndexDoc)])
       (console w) (clock w),
     Resolved augIndexDoc).
Proof.
  intros Hq. quiet_world w. unfold indexPage. simpl.
  by rewrite <- app_assoc.
Qed.

(** C2. The id of the document being the key of a page record and of
    nothing else: with a record stored under it, [indexPage] builds a
    record of the same id whose [terms], [titleTerms], [visits] and
    [bookmarks] are the unions of the stored and the incoming sets, and
    whose [urlTerms], [domain] and [latest] are the incoming ones; without
    a stored record it takes the incoming document as it is.  The record,
    once augmented, is what [indexPage] stores under the id and returns. *)
Theorem indexPage_merges (augment : IndexLookupDoc -> IndexLookupDoc)
    (indexDoc : IndexLookupDoc) (w : World) :
  faults w = [] ->
  inRole KPage {[ id indexDoc ]} (index w) ->
  let existingDoc := pages (index w) !! id indexDoc in
  let merged := newIndexDoc existingDoc indexDoc in
  (run (indexPage augment indexDoc) w).2 = Resolved (augment merged)
  /\ pages (index (exec (indexPage augment indexDoc) w)) !! id indexDoc
     = Some (augment merged)
  /\ (existingDoc = None -> merged = indexDoc)
  /\ (forall existing, existingDoc = Some existing ->
        id merged = id indexDoc
        /\ terms merged = terms existing ∪ terms indexDoc
        /\ titleTerms merged = titleTerms existing ∪ titleTerms indexDoc
        /\ visits merged = visits existing ∪ visits indexDoc
        /\ bookmarks merged = bookmarks existing ∪ bookmarks indexDoc
        /\ urlTerms merged = urlTerms indexDoc
        /\ domain merged = domain indexDoc
        /\ latest merged = latest indexDoc).
Proof.
  intros Hq _ existingDoc merged. unfold exec.
  rewrite (indexPage_run augment indexDoc w Hq). simpl.
  split; [done|]. split; [apply lookup_insert_eq|]. split.
  - intros Hnone. unfold merged. by rewrite Hnone.
  - intros existing Hsome. unfold merged. rewrite Hsome. simpl. done.
Qed.

Lemma indexPage_merges_witness :
  let w := boot indexWithA 9%N in
  let merged := newIndexDoc (Some pageA) pageA_older in
  inRole KPage {[ id pageA_older ]} (index w)
  /\ (run (indexPage noAugment pageA_older) w).2 = Resolved merged
  /\ pages (index (exec (indexPage noAugment pageA_older) w)) !! "page/a" = Some merged
  /\ terms merged = {[ "term/foo"; "term/bar"; "term/baz" ]}
  /\ urlTerms merged = ∅
  /\ latest merged = 50%N.
Proof.
  intros w merged.
  assert (Hrole : inRole KPage {[ id pageA_older ]} (index w)) by decided.
  destruct (indexPage_merges noAugment pageA_older w eq_refl Hrole)
    as (Hrun & Hput & _ & Hfields).
  destruct (Hfields pageA eq_refl) as (_ & Hterms & _ & _ & _ & Hurl & _ & Hlatest).
  split; [exact Hrole|]. split; [exact Hrun|]. split; [exact Hput|].
  split; [|split]; reflexivity.
Defined.

(** ** [latest] across merges *)






(** ** Tasks that finish *)

Lemma within_mono {A : Type} (t : Task A) (n m : nat) :
  within n t -> n <= m -> within m t.
Proof.
  revert n m. induction t as [a|e|R op k IH|]; intros n m Hw Hle; simpl in *; try done.
  destruct n as [|n]; [done|]. destruct m as [|m]; [lia|].
  intros o. apply (IH o n m); [apply Hw | lia].
Qed.

Lemma within_bind {A B : Type} (t : Task A) (f : A -> Task B) (n m : nat) :
  within n t -> (forall a, within m (f a)) -> within (n + m) (bind t f).
Proof.
  revert n. induction t as [a|e|R op k IH|]; intros n Hw Hf; simpl in *; try done.
  - apply (within_mono _ m); [apply Hf | lia].
  - destruct n as [|n]; [done|]. simpl. intros o. by apply IH.
Qed.

Lemma within_tryCatch {A : Type} (t : Task A) (h : Error -> Task A) (n m : nat) :
  within n t -> (forall e, within m (h e)) -> within (n + m) (tryCatch t h).
Proof.
  revert n. induction t as [a|e|R op k IH|]; intros n Hw Hh; simpl in *; try done.
  - apply (within_mono _ m); [apply Hh | lia].
  - destruct n as [|n]; [done|]. simpl. intros o. by apply IH.
Qed.

Lemma within_await {R : Type} (op : Op R) : within 1 (await op).
Proof. intros [r|e]; exact I. Qed.

(** A bounded task runs to an end. *)
Lemma run_within {A : Type} (t : Task A) (n : nat) (w : World) :
  within n t -> (run t w).2 ≠ Unfinished.
Proof.
  revert n w. induction t as [a|e|R op k IH|]; intros n w Hw; simpl in *; try done.
  destruct n as [|n]; [done|].
  destruct (perform op w) as [w1 o]. by apply (IH o n).
Qed.

Lemma sum_list_snoc (ns : list nat) (n : nat) : sum_list (ns ++ [n]) = sum_list ns + n.
Proof. induction ns as [|m ns IH]; simpl; lia. Qed.

Lemma settle_budget (t : Task unit) (n : nat) (waiting : list (Task unit))
    (rejection : option Error) (ns : list nat) :
  within n t ->
  Forall2 (fun n t => isCall t /\ within n t) ns waiting ->
  exists ns',
    Forall2 (fun n t => isCall t /\ within n t) ns' (settle t (waiting, rejection)).1
    /\ sum_list ns' <= sum_list ns + n.
Proof.
  intros Hw Hall. destruct t as [a|e|R op k|]; simpl in *; try done.
  - exists ns. split; [done | lia].
  - exists ns. split; [done | lia].
  - exists (ns ++ [n]). split.
    + apply Forall2_app; [done|]. by repeat constructor.
    + rewrite sum_list_snoc. lia.
Qed.

Lemma serve_within (bound : nat) :
  forall (waiting : list (Task unit)) (rejection : option Error) (ns : list nat),
    Forall2 (fun n t => isCall t /\ within n t) ns waiting ->
    sum_list ns <= bound ->
    within (sum_list ns) (serve bound waiting rejection).
Proof.
  induction bound as [|b IH]; intros waiting rejection ns Hall Hsum.
  - destruct Hall as [|n t ns waiting [Hcall Hw] Hall]; simpl.
    + by destruct rejection.
    + destruct t; simpl in *; try done. destruct n; [done | lia].
  - destruct Hall as [|n t ns waiting [Hcall Hw] Hall]; simpl.
    + by destruct rejection.
    + destruct t as [a|e|R op k|]; simpl in *; try done.
      destruct n as [|n]; [done|]. simpl. intros o.
      destruct (settle_budget (k o) n waiting rejection ns (Hw o) Hall)
        as (ns' & Hall' & Hsum').
      apply (within_mono _ (sum_list ns')); [|lia].
      apply IH; [done | lia].
Qed.

Lemma promiseAll_within (n bound : nat) (branches : list (Task unit)) :
  Forall (within n) branches ->
  n * length branches <= bound ->
  within bound (promiseAll bound branches).
Proof.
  intros Hall Hbound. unfold promiseAll.
  assert (Hfold : forall (bs : list (Task unit)) st ns,
            Forall (within n) bs ->
            Forall2 (fun n t => isCall t /\ within n t) ns st.1 ->
            exists ns',
              Forall2 (fun n t => isCall t /\ within n t) ns'
                      (foldl (fun st t => settle t st) st bs).1
              /\ sum_list ns' <= sum_list ns + n * length bs).
  { induction bs as [|t bs IHbs]; intros st ns Hbs Hst; simpl.
    - exists ns. split; [done | lia].
    - inversion Hbs as [|? ? Ht Hbs']; subst. destruct st as [waiting rejection].
      destruct (settle_budget t n waiting rejection ns Ht Hst) as (ns1 & Hall1 & Hsum1).
      destruct (IHbs _ ns1 Hbs' Hall1) as (ns2 & Hall2 & Hsum2).
      exists ns2. split; [done | lia]. }
  destruct (Hfold branches ([], None) [] Hall) as (ns & Hns & Hsum); [constructor|].
  simpl in Hsum.
  apply (within_mono _ (sum_list ns)); [|lia].
  apply serve_within; [done | lia].
Qed.

Lemma indexDomain_within (indexDoc : IndexLookupDoc) : within 2 (indexDomain indexDoc).
Proof. intros [v|e]; [intros [u|e]|]; exact I. Qed.

Lemma initIndexTerms_within (termsField : IndexLookupDoc -> gset string) (termKey : string)
    (indexDoc : IndexLookupDoc) :
  within 2 (initIndexTerms termsField termKey indexDoc).
Proof.
  unfold initIndexTerms. case_decide; [exact I|].
  case_decide; (intros [v|e]; [intros [u|e]|]; exact I).
Qed.

Lemma indexMetaTimestamps_within (indexDoc : IndexLookupDoc) :
  within 2 (indexMetaTimestamps indexDoc).
Proof. intros [v|e]; [intros [u|e]|]; exact I. Qed.

Lemma indexPage_within (augment : IndexLookupDoc -> IndexLookupDoc)
    (indexDoc : IndexLookupDoc) :
  within 2 (indexPage augment indexDoc).
Proof. intros [v|e]; [intros [u|e]|]; exact I. Qed.

(** The bound [performIndexing] gives [Promise.all] is enough. *)
Lemma indexingBody_within (augment : IndexLookupDoc -> IndexLookupDoc)
    (indexDoc : IndexLookupDoc) :
  within 15 (indexingBody augment indexDoc).
Proof.
  unfold indexingBody, mbind, task_bind.
  apply (within_bind _ _ 1 14); [apply within_await|]. intros _.
  apply (within_bind _ _ 2 12); [apply indexPage_within|]. intros augIndexDoc.
  apply (within_bind _ _ 10 2).
  - apply (promiseAll_within 2); [|simpl; lia].
    repeat constructor;
      first [ apply indexDomain_within | apply initIndexTerms_within
            | apply indexMetaTimestamps_within ].
  - intros _. apply (within_bind _ _ 1 1); [apply within_await|]. intros _.
    apply within_await.
Qed.

(** ** A pipeline that rejects *)

Lemma reject_fresh (ps : list PromiseState) (e : Error) :
  reject (length ps) e (ps ++ [Pending]) = ps ++ [Settled (Failed e)].
Proof.
  unfold reject, settlePromise.
  rewrite list_lookup_middle by done.
  replace (length ps) with (length ps + 0) at 1 by lia.
  by rewrite insert_app_r.
Qed.

(** The work queued for a missing document fails before any request. *)
Lemma performIndexing_undefined (augment : IndexLookupDoc -> IndexLookupDoc) (w : World) :
  run (performIndexing augment (Fulfilled None)) w
  = (w, Rejected (TypeError "Cannot read property 'terms' of undefined")).
Proof. reflexivity. Qed.

(** On the direct path a rejection of the pipeline is the rejection of
    [addPage], with the world as it was. *)
Lemma addPage_rejection (IndexRequest : Type)
    (pipeline : IndexRequest -> Outcome IndexLookupDoc)
    (augment : IndexLookupDoc -> IndexLookupDoc)
    (req : IndexRequest) (e : Error) (w : World) :
  pipeline req = Failed e ->
  run (addPage IndexRequest pipeline augment req) w = (w, Rejected e).
Proof. intros Hreq. unfold addPage. by rewrite Hreq. Qed.

(** C4, as the code has it.  When the pipeline rejects, [addPageConcurrent]
    rejects the caller's promise with the pipeline's error and leaves the
    world alone, yet it pushes one unit of work on the queue.  That work
    fails on the missing document before it issues any request: running
    the queue changes neither the world nor the caller's promise. *)
Theorem addPageConcurrent_rejection (IndexRequest : Type)
    (pipeline : IndexRequest -> Outcome IndexLookupDoc)
    (augment : IndexLookupDoc -> IndexLookupDoc)
    (req : IndexRequest) (e : Error) (rt : Runtime) :
  pipeline req = Failed e ->
  let '(p, rt') := addPageConcurrent IndexRequest pipeline augment req rt in
  promises rt' !! p = Some (Settled (Failed e))
  /\ world rt' = world rt
  /\ indexQueue rt'
     = indexQueue rt ++ [mkJob (performIndexing augment (Fulfilled None)) p]
  /\ (indexQueue rt = [] ->
      world (runQueue rt') = world rt
      /\ promises (runQueue rt') !! p = Some (Settled (Failed e))).
Proof.
  intros Hreq. unfold addPageConcurrent, newPromise, indexQueue_push.
  cbn [world indexQueue promises]. rewrite Hreq.
  cbn [world indexQueue promises]. rewrite reject_fresh.
  assert (Hp : (promises rt ++ [Settled (Failed e)]) !! length (promises rt)
               = Some (Settled (Failed e))) by (by apply list_lookup_middle).
  split; [exact Hp|]. split; [done|]. split; [done|].
  intros Hempty. rewrite Hempty. unfold runQueue.
  cbn [world indexQueue promises app foldl]. unfold runJob.
  cbn [world indexQueue promises jobTask jobPromise].
  rewrite performIndexing_undefined. cbn [world promises].
  split; [done|]. unfold reject, settlePromise. by rewrite Hp.
Qed.

Lemma addPageConcurrent_rejection_witness :
  let rt := idle (boot indexWithA 9%N) in
  rejectingPipeline "request" = Failed (PipelineError "request")
  /\ let '(p, rt') := addPageConcurrent string rejectingPipeline noAugment "request" rt in
     promises rt' !! p = Some (Settled (Failed (PipelineError "request")))
     /\ world rt' = world rt
     /\ indexQueue rt'
        = indexQueue rt ++ [mkJob (performIndexing noAugment (Fulfilled None)) p]
     /\ (indexQueue rt = [] ->
         world (runQueue rt') = world rt
         /\ promises (runQueue rt') !! p = Some (Settled (Failed (PipelineError "request")))).
Proof.
  intros rt. split; [reflexivity|].
  apply (addPageConcurrent_rejection string rejectingPipeline noAugment "request"
           (PipelineError "request") rt).
  reflexivity.
Defined.

(** C4, as the claim has it, fails: the queue of an idle runtime holds one
    unit of work after a call whose pipeline rejected. *)
Lemma addPageConcurrent_enqueues_on_rejection :
  let rt := idle (boot indexWithA 9%N) in
  rejectingPipeline "request" = Failed (PipelineError "request")
  /\ indexQueue rt = []
  /\ length (indexQueue (addPageConcurrent string rejectingPipeline noAugment "request" rt).2)
     = 1
  /\ ~ (forall (req : string) (rt0 : Runtime),
          indexQueue (addPageConcurrent string rejectingPipeline noAugment req rt0).2
          = indexQueue rt0).
Proof.
  intros rt. split; [reflexivity|]. split; [reflexivity|]. split; [reflexivity|].
  intros Hclaim. specialize (Hclaim "request" rt). discriminate Hclaim.
Qed.

(** ** The timestamp given to [addBookmarkConcurrent] *)

(** C5 fails on the code.  [addBookmarkConcurrent] queues
    [addBookmark(pageId)], without the timestamp it was given: called with
    42 while the clock shows 1000, it writes [bookmark/1000] and no
    [bookmark/42], as a call without timestamp does. *)
Theorem addBookmarkConcurrent_drops_timestamp :
  (forall (prefix pageId : string) (t : Timestamp) (rt : Runtime),
     addBookmarkConcurrent prefix pageId (Some t) rt
     = addBookmarkConcurrent prefix pageId None rt)
  /\ let rt := idle (boot indexWithA 1000%N) in
     let '(p, queued) := addBookmarkConcurrent "bookmark/" "page/a" (Some 42%N) rt in
     let after := runQueue queued in
     promises after !! p = Some (Settled (Fulfilled tt))
     /\ metas (index (world after)) !! "bookmark/42" = None
     /\ metas (index (world after)) !! "bookmark/1000" = Some "page/a"
     /\ bookmarks <$> pages (index (world after)) !! "page/a" = Some {[ "bookmark/1000" ]}.
Proof.
  split; [reflexivity|]. vm_compute. repeat split.
Qed.



(** ** Lookups and batches *)

Lemma lookupAll_lookup {V : Type} (m : gmap string V) (keys : gset string) (k : string) :
  lookupAll m keys !! k = if decide (k ∈ keys) then Some (m !! k) else None.
Proof.
  unfold lookupAll. case_decide as Hin.
  - apply lookup_set_to_map; [naive_solver|]. by exists k.
  - apply eq_None_not_Some. intros [v Hv].
    apply lookup_set_to_map in Hv as (y & Hy & [= -> _]); [done | naive_solver].
Qed.

Lemma rangeScan_lookup {V : Type} (prefix : string) (m : gmap string V) (k : string) :
  rangeScan prefix m !! k = if String.prefix prefix k then m !! k else None.
Proof.
  unfold rangeScan. destruct (String.prefix prefix k) eqn:Hp.
  - destruct (m !! k) as [v|] eqn:Hk.
    + apply map_lookup_filter_Some. done.
    + apply map_lookup_filter_None. left. done.
  - apply map_lookup_filter_None. right. intros v _. simpl. congruence.
Qed.

Lemma forOf_put {V B : Type} (f : V -> B) (entries : gmap string V) :
  forOf entries (fun term cur batch => <[term := f cur]> batch) ∅ = f <$> entries.
Proof.
  unfold forOf.
  apply (map_fold_weak_ind (fun (r : gmap string B) (m : gmap string V) => r = f <$> m)).
  - by rewrite fmap_empty.
  - intros k v m r Hk ->. by rewrite fmap_insert.
Qed.

Lemma forOf_meta (docId : string) (entries : gmap string (option string)) (k : string) :
  forOf entries
    (fun timestamp existing batch =>
       if decide (existing ≠ Some docId) then <[timestamp := docId]> batch else batch)
    (∅ : gmap string string) !! k
  = match entries !! k with
    | Some existing => if decide (existing ≠ Some docId) then Some docId else None
    | None => None
    end.
Proof.
  unfold forOf.
  apply (map_fold_weak_ind (fun (r : gmap string string) (m : gmap string (option string)) =>
     r !! k = match m !! k with
    | Some existing => if decide (existing ≠ Some docId) then Some docId else None
    | None => None
    end)).
  - by rewrite !lookup_empty.
  - intros j v m r Hj IH. destruct (decide (j = k)) as [->|Hne].
    + rewrite lookup_insert_eq. rewrite Hj in IH. case_decide.
      * by rewrite lookup_insert_eq.
      * done.
    + rewrite (lookup_insert_ne m) by done. case_decide.
      * by rewrite lookup_insert_ne.
      * done.
Qed.

(** ** [Promise.all] over the indexers

    On a store that raises no fault every lookup is served on the index
    the branches started from, and the writes follow in the order of the
    branches. *)

Lemma perform_store {R : Type} (op : Op R) (w : World) :
  isStoreRequest op = true ->
  faults w = [] ->
  perform op w
  = (mkWorld (after op (index w)) [] (trace w ++ [Issued op]) (console w) (clock w),
     Fulfilled (result op (index w))).
Proof.
  intros Hop Hq. quiet_world w. by destruct op.
Qed.

Lemma lookup_store {R : Type} (op : Op R) :
  isLookup op = true -> isStoreRequest op = true /\ forall i, after op i = i.
Proof. by destruct op. Qed.

Lemma write_store (op : Op unit) : isWrite (Issued op) = true -> isStoreRequest op = true.
Proof.
  intros H. 
  refine (match op as o in Op R return isWrite (Issued o) = true -> isStoreRequest o = true with
          | Put _ _ _ => fun _ => eq_refl | BatchCommit _ _ => fun _ => eq_refl
          | _ => fun H => _ end H); simpl in *; try discriminate; done.
Qed.

Lemma serve_writes (writes : list (Op unit)) :
  forall (bound : nat) (w : World),
    Forall (fun op => isWrite (Issued op) = true) writes ->
    length writes <= bound ->
    faults w = [] ->
    exists w',
      run (serve bound (await <$> writes) None) w = (w', Resolved tt)
      /\ faults w' = []
      /\ index w' = written (index w) writes.
Proof.
  induction writes as [|op writes IH]; intros bound w Hall Hlen Hq.
  - exists w. by destruct bound.
  - inversion Hall as [|? ? Hop Hall']; subst. simpl in Hlen.
    destruct bound as [|b]; [lia|].
    cbn [fmap list_fmap serve await run].
    rewrite (perform_store op w (write_store op Hop) Hq).
    cbn [settle fst snd].
    destruct (IH b (mkWorld (after op (index w)) [] (trace w ++ [Issued op]) (console w) (clock w)))
      as (w' & Hrun & Hq' & Hidx); [done | lia | done |].
    exists w'. done.
Qed.

Lemma serve_reads (reads : list Exchange) :
  forall (writes : list (Op unit)) (bound : nat) (w : World),
    Forall wellFormed reads ->
    faults w = [] ->
    exists w1,
      index w1 = index w
      /\ faults w1 = []
      /\ run (serve (length reads + bound)
                    ((exchangeTask <$> reads) ++ (await <$> writes)) None) w
         = run (serve bound (await <$> (writes ++ (pendingWrite (index w) <$> reads))) None) w1.
Proof.
  induction reads as [|x reads IH]; intros writes bound w Hall Hq.
  - exists w. simpl. by rewrite app_nil_r.
  - inversion Hall as [|? ? [Hread Hwrite] Hall']; subst.
    destruct (lookup_store _ Hread) as [Hstore Hafter].
    cbn [length Nat.add fmap list_fmap app serve exchangeTask await bind run].
    rewrite (perform_store _ w Hstore Hq), Hafter.
    cbn [settle fst snd bind await].
    destruct (IH (writes ++ [pendingWrite (index w) x]) bound
                 (mkWorld (index w) [] (trace w ++ [Issued (exRead x)]) (console w) (clock w)))
      as (w1 & Hidx & Hq1 & Hrun); [done | done |].
    exists w1. split; [done|]. split; [done|].
    cbn [index] in Hrun. rewrite <- app_assoc in Hrun. cbn [app] in Hrun.
    rewrite <- Hrun. rewrite fmap_app, <- app_assoc. reflexivity.
Qed.

Lemma settle_branches (bs : list (option Exchange)) :
  forall waiting : list (Task unit),
    foldl (fun st t => settle t st) (waiting, None) (branchTask <$> bs)
    = (waiting ++ (exchangeTask <$> exchanges bs), None).
Proof.
  induction bs as [|[x|] bs IH]; intros waiting; simpl.
  - by rewrite app_nil_r.
  - rewrite IH, <- app_assoc. reflexivity.
  - apply IH.
Qed.

Lemma promiseAll_exchanges (bs : list (option Exchange)) (bound : nat) (w : World) :
  Forall wellFormed (exchanges bs) ->
  2 * length (exchanges bs) <= bound ->
  faults w = [] ->
  exists w',
    run (promiseAll bound (branchTask <$> bs)) w = (w', Resolved tt)
    /\ faults w' = []
    /\ index w' = written (index w) (pendingWrite (index w) <$> exchanges bs).
Proof.
  intros Hall Hbound Hq. unfold promiseAll.
  rewrite settle_branches. cbn [fst snd app].
  set (reads := exchanges bs) in *.
  replace bound with (length reads + (bound - length reads)) by lia.
  replace (exchangeTask <$> reads) with ((exchangeTask <$> reads) ++ (await <$> []))
    by apply app_nil_r.
  destruct (serve_reads reads [] (bound - length reads) w Hall Hq)
    as (w1 & Hidx & Hq1 & Hrun).
  rewrite Hrun. cbn [app].
  destruct (serve_writes (pendingWrite (index w) <$> reads) (bound - length reads) w1)
    as (w' & Hrun' & Hq' & Hidx'); [| |done|].
  - apply Forall_fmap. eapply Forall_impl; [exact Hall|]. intros x [_ Hw]. apply Hw.
  - rewrite length_fmap. lia.
  - exists w'. rewrite Hidx in Hidx'. done.
Qed.

Lemma indexDomain_exchange (doc : IndexLookupDoc) :
  indexDomain doc = branchTask (Some (domainExchange doc)).
Proof. reflexivity. Qed.

Lemma indexMetaTimestamps_exchange (doc : IndexLookupDoc) :
  indexMetaTimestamps doc = branchTask (Some (metaExchange doc)).
Proof. reflexivity. Qed.

Lemma initIndexTerms_exchange (termsField : IndexLookupDoc -> gset string)
    (termKey : string) (doc : IndexLookupDoc) :
  initIndexTerms termsField termKey doc = branchTask (termsExchange termsField termKey doc).
Proof.
  unfold initIndexTerms, termsExchange. case_decide; [reflexivity|].
  case_decide; reflexivity.
Qed.

Lemma termView_empty (termKey : string) (keys : gset string)
    (post : gmap string IndexTermValue) :
  size keys = 0 -> termView termKey keys post = ∅.
Proof.
  intros Hz. apply size_empty_iff, leibniz_equiv in Hz. subst keys.
  unfold termView. apply map_eq. intros k. rewrite lookup_empty.
  case_decide; rewrite lookupAll_lookup; by rewrite decide_False by set_solver.
Qed.

Lemma termsExchange_wellFormed (termsField : IndexLookupDoc -> gset string)
    (termKey : string) (doc : IndexLookupDoc) :
  Forall wellFormed (exchanges [termsExchange termsField termKey doc]).
Proof.
  unfold termsExchange. case_decide; [constructor|].
  case_decide; repeat constructor.
Qed.

(** What a term indexer writes over the index [i] when its lookup was
    served on [snapshot]. *)

Lemma termsExchange_written (termsField : IndexLookupDoc -> gset string)
    (termKey : string) (doc : IndexLookupDoc) (snapshot i : Index) :
  written i (pendingWrite snapshot <$> exchanges [termsExchange termsField termKey doc])
  = mkIndex (pages i)
      (termBatch termsField termKey doc (postings snapshot) ∪ postings i) (metas i).
Proof.
  unfold termsExchange, termBatch. case_decide as Hsize.
  - rewrite termView_empty by done. rewrite fmap_empty, (left_id_L ∅ (∪)).
    by destruct i.
  - unfold termView.
    case_decide; cbn; rewrite forOf_put; reflexivity.
Qed.

Lemma exchanges_cons (b : option Exchange) (bs : list (option Exchange)) :
  exchanges (b :: bs) = exchanges [b] ++ exchanges bs.
Proof. by destruct b. Qed.

Lemma written_app (i : Index) (ws1 ws2 : list (Op unit)) :
  written i (ws1 ++ ws2) = written (written i ws1) ws2.
Proof. apply foldl_app. Qed.

Lemma indexers_run (doc : IndexLookupDoc) (w : World) :
  faults w = [] ->
  exists w',
    run (promiseAll 10
           [ indexDomain doc; indexUrlTerms doc; indexTitleTerms doc; indexTerms doc;
             indexMetaTimestamps doc ]) w = (w', Resolved tt)
    /\ faults w' = []
    /\ index w' = indexed doc (index w).
Proof.
  intros Hq.
  set (bs := [ Some (domainExchange doc); termsExchange urlTerms "url/" doc;
               termsExchange titleTerms "title/" doc; termsExchange terms "term/" doc;
               Some (metaExchange doc) ]).
  assert (Hbs : [ indexDomain doc; indexUrlTerms doc; indexTitleTerms doc; indexTerms doc;
                  indexMetaTimestamps doc ] = branchTask <$> bs).
  { unfold indexUrlTerms, indexTitleTerms, indexTerms.
    rewrite !initIndexTerms_exchange. reflexivity. }
  assert (Hsplit : exchanges bs
                   = [domainExchange doc]
                     ++ exchanges [termsExchange urlTerms "url/" doc]
                     ++ exchanges [termsExchange titleTerms "title/" doc]
                     ++ exchanges [termsExchange terms "term/" doc]
                     ++ [metaExchange doc]).
  { unfold bs. rewrite exchanges_cons.
    rewrite (exchanges_cons (termsExchange urlTerms "url/" doc)).
    rewrite (exchanges_cons (termsExchange titleTerms "title/" doc)).
    rewrite (exchanges_cons (termsExchange terms "term/" doc)). reflexivity. }
  rewrite Hbs.
  destruct (promiseAll_exchanges bs 10 w) as (w' & Hrun & Hq' & Hidx).
  - rewrite Hsplit. repeat apply Forall_app_2; try apply termsExchange_wellFormed.
    all: by repeat constructor.
  - assert (Hlen : length (exchanges bs) <= 5).
    { unfold bs, termsExchange. repeat case_decide; simpl; lia. }
    lia.
  - done.
  - exists w'. split; [done|]. split; [done|].
    rewrite Hidx, Hsplit. rewrite !fmap_app, !written_app.
    rewrite !termsExchange_written. cbn. reflexivity.
Qed.

(** ** A pass on a store without faults *)

Lemma run_console (msg : ConsoleMsg) (w : World) :
  run (invoke (Console msg)) w
  = (mkWorld (index w) (faults w) (trace w) (console w ++ [msg]) (clock w), Resolved tt).
Proof. reflexivity. Qed.

Lemma performIndexing_run (augment : IndexLookupDoc -> IndexLookupDoc)
    (doc : IndexLookupDoc) (w : World) :
  faults w = [] ->
  size (terms doc) ≠ 0 ->
  let augIndexDoc := augment (newIndexDoc (pages (index w) !! id doc) doc) in
  let w' := exec (performIndexing augment (Fulfilled (Some doc))) w in
  (run (performIndexing augment (Fulfilled (Some doc))) w).2 = Resolved tt
  /\ faults w' = []
  /\ index w' = indexed augIndexDoc (withPage augIndexDoc (id doc) (index w)).
Proof.
  intros Hq Hsize augIndexDoc w'. unfold w', exec, performIndexing.
  rewrite decide_False by done. rewrite run_tryCatch.
  unfold indexingBody, mbind, task_bind.
  rewrite run_bind, run_console, run_bind, indexPage_run by done.
  cbn [index faults trace console clock].
  fold augIndexDoc. rewrite run_bind.
  match goal with |- context [run (promiseAll _ _) ?w0] => 
    destruct (indexers_run augIndexDoc w0 eq_refl) as (w1 & Hrun & Hq1 & Hidx) end.
  rewrite Hrun, run_bind, !run_console. cbn [fst snd index faults].
  done.
Qed.

(** ** Indexing the same document again *)

Lemma termBatch_lookup (termsField : IndexLookupDoc -> gset string) (termKey : string)
    (doc : IndexLookupDoc) (post : gmap string IndexTermValue) (k : string) :
  termBatch termsField termKey doc post !! k
  = if decide (k ∈ termsField doc)
    then Some (reduceTermValue
                 (if seen termKey (termsField doc) k then post !! k else None) doc)
    else None.
Proof.
  unfold termBatch, termView, seen. rewrite lookup_fmap.
  case_decide; rewrite lookupAll_lookup; case_decide; simpl; try done.
  by rewrite rangeScan_lookup.
Qed.

Lemma postingsAfter_lookup (doc : IndexLookupDoc) (post : gmap string IndexTermValue) (k : string) :
  postingsAfter doc post !! k
  = if decide (k ∈ terms doc)
    then Some (reduceTermValue (if seen "term/" (terms doc) k then post !! k else None) doc)
    else if decide (k ∈ titleTerms doc)
    then Some (reduceTermValue
                 (if seen "title/" (titleTerms doc) k then post !! k else None) doc)
    else if decide (k ∈ urlTerms doc)
    then Some (reduceTermValue (if seen "url/" (urlTerms doc) k then post !! k else None) doc)
    else if decide (k = domain doc)
    then Some (reduceTermValue (post !! k) doc)
    else post !! k.
Proof.
  unfold postingsAfter. rewrite !union_lookup_batch, !termBatch_lookup.
  repeat case_decide; try done.
  - subst k. by rewrite lookup_insert_eq.
  - by rewrite lookup_insert_ne.
Qed.


Lemma metasAfter_lookup (doc : IndexLookupDoc) (m : gmap string string) (k : string) :
  metasAfter doc m !! k
  = if decide (k ∈ bookmarks doc ∪ visits doc) then Some (id doc) else m !! k.
Proof.
  unfold metasAfter, metaBatch. rewrite union_lookup_batch, forOf_meta, lookupAll_lookup.
  repeat case_decide; try done.
Qed.






(** The scenario of the spec: page [page/a], indexed with terms foo and bar
    at 100, then again with bar and baz at 50, has all three terms posted
    under the second [latest]. *)
Example reindexing_scenario :
  let once := exec (performIndexing noAugment (Fulfilled (Some pageA))) (boot emptyIndex 9%N) in
  let again := exec (performIndexing noAugment (Fulfilled (Some pageA_older))) once in
  postings (index once) !! "term/foo" = Some {[ "page/a" := mkEntry 100%N ]}
  /\ terms <$> pages (index again) !! "page/a"
     = Some {[ "term/foo"; "term/bar"; "term/baz" ]}
  /\ postings (index again) !! "term/foo" = Some {[ "page/a" := mkEntry 50%N ]}
  /\ postings (index again) !! "term/bar" = Some {[ "page/a" := mkEntry 50%N ]}
  /\ postings (index again) !! "url/example" = Some {[ "page/a" := mkEntry 100%N ]}.
Proof. vm_compute. repeat split. Qed.

(** ** Requests under a fault plan *)

Lemma perform_request {R : Type} (op : Op R) (w : World) :
  isStoreRequest op = true ->
  perform op w
  = (mkWorld (if struck (faults w) then index w else after op (index w))
             (tail (faults w)) (trace w ++ [Issued op]) (console w) (clock w),
     if struck (faults w) then Failed StoreError else Fulfilled (result op (index w))).
Proof.
  intros Hop. destruct w as [i fs tr co cl]. destruct fs as [|[|] fs]; by destruct op.
Qed.

Lemma drop_tail {A : Type} (n : nat) (l : list A) : drop n (tail l) = drop (S n) l.
Proof. destruct l; simpl; [by rewrite drop_nil | done]. Qed.

Lemma serve_writes_faulty (writes : list (Op unit)) :
  forall (bound : nat) (rejection : option Error) (w : World),
    Forall (fun op => isWrite (Issued op) = true) writes ->
    length writes <= bound ->
    exists w',
      run (serve bound (await <$> writes) rejection) w
      = (w', settled (rejectedBy rejection (anyStruck (faults w) (length writes))))
      /\ faults w' = drop (length writes) (faults w)
      /\ index w' = written (index w) (spared (faults w) writes)
      /\ console w' = console w.
Proof.
  induction writes as [|op writes IH]; intros bound rejection w Hall Hlen.
  - exists w. destruct bound, rejection; done.
  - inversion Hall as [|? ? Hop Hall']; subst. simpl in Hlen.
    destruct bound as [|b]; [lia|].
    cbn [fmap list_fmap serve await run].
    rewrite (perform_request op w (write_store op Hop)).
    set (w1 := mkWorld _ _ _ _ _).
    destruct (struck (faults w)) eqn:Hs; cbn [settle fst snd].
    + destruct (IH b (match rejection with None => Some StoreError | Some first => Some first end) w1)
        as (w' & Hrun & Hq & Hidx & Hco); [done | lia |].
      exists w'. cbn [length anyStruck spared]. rewrite Hs. cbn [orb].
      split; [|split; [|split]].
      * rewrite Hrun. subst w1. cbn [faults]. by destruct rejection, (anyStruck _ _).
      * rewrite Hq. subst w1. cbn [faults]. apply drop_tail.
      * rewrite Hidx. subst w1. done.
      * rewrite Hco. subst w1. done.
    + destruct (IH b rejection w1) as (w' & Hrun & Hq & Hidx & Hco); [done | lia |].
      exists w'. cbn [length anyStruck spared]. rewrite Hs. cbn [orb].
      split; [|split; [|split]].
      * rewrite Hrun. subst w1. done.
      * rewrite Hq. subst w1. cbn [faults]. apply drop_tail.
      * rewrite Hidx. subst w1. done.
      * rewrite Hco. subst w1. done.
Qed.

Lemma rejectedBy_or (rejection : option Error) (a b : bool) :
  rejectedBy (rejectedBy rejection a) b = rejectedBy rejection (a || b).
Proof. by destruct rejection, a, b. Qed.

Lemma spared_length {A : Type} (xs : list A) :
  forall fs, length (spared fs xs) <= length xs.
Proof.
  induction xs as [|x xs IH]; intros fs; simpl; [lia|].
  specialize (IH (tail fs)). destruct (struck fs); simpl; lia.
Qed.

Lemma serve_reads_faulty (reads : list Exchange) :
  forall (writes : list (Op unit)) (bound : nat) (rejection : option Error) (w : World),
    Forall wellFormed reads ->
    exists w1,
      index w1 = index w
      /\ console w1 = console w
      /\ faults w1 = drop (length reads) (faults w)
      /\ run (serve (length reads + bound)
                    ((exchangeTask <$> reads) ++ (await <$> writes)) rejection) w
         = run (serve bound
                  (await <$> (writes ++ (pendingWrite (index w) <$> spared (faults w) reads)))
                  (rejectedBy rejection (anyStruck (faults w) (length reads)))) w1.
Proof.
  induction reads as [|x reads IH]; intros writes bound rejection w Hall.
  - exists w. simpl. rewrite app_nil_r. by destruct rejection.
  - inversion Hall as [|? ? [Hread Hwrite] Hall']; subst.
    destruct (lookup_store _ Hread) as [Hstore Hafter].
    cbn [length Nat.add fmap list_fmap app serve exchangeTask await bind run].
    rewrite (perform_request _ w Hstore), Hafter.
    assert (Hsame : (if struck (faults w) then index w else index w) = index w)
      by (by destruct (struck (faults w))).
    rewrite Hsame.
    set (w0 := mkWorld _ _ _ _ _).
    cbn [anyStruck spared].
    destruct (struck (faults w)) eqn:Hs; cbn [settle fst snd bind await orb].
    + destruct (IH writes bound
                   (match rejection with None => Some StoreError | Some first => Some first end)
                   w0 Hall') as (w1 & Hidx & Hco & Hq & Hrun).
      exists w1. split; [done|]. split; [done|]. split.
      * rewrite Hq. subst w0. cbn [faults]. apply drop_tail.
      * rewrite Hrun. subst w0. cbn [index faults]. by destruct rejection.
    + destruct (IH (writes ++ [pendingWrite (index w) x]) bound rejection w0 Hall')
        as (w1 & Hidx & Hco & Hq & Hrun).
      exists w1. split; [done|]. split; [done|]. split.
      * rewrite Hq. subst w0. cbn [faults]. apply drop_tail.
      * subst w0. cbn [index faults] in Hrun.
        rewrite <- app_assoc in Hrun. cbn [app] in Hrun.
        rewrite fmap_cons, <- Hrun. rewrite fmap_app, <- app_assoc. reflexivity.
Qed.

Lemma promiseAll_exchanges_faulty (bs : list (option Exchange)) (bound : nat) (w : World) :
  Forall wellFormed (exchanges bs) ->
  2 * length (exchanges bs) <= bound ->
  let reads := exchanges bs in
  let afterReads := drop (length reads) (faults w) in
  let writes := pendingWrite (index w) <$> spared (faults w) reads in
  exists w',
    run (promiseAll bound (branchTask <$> bs)) w
    = (w', settled (rejectedBy None (anyStruck (faults w) (length reads)
                                     || anyStruck afterReads (length writes))))
    /\ faults w' = drop (length writes) afterReads
    /\ index w' = written (index w) (spared afterReads writes)
    /\ console w' = console w.
Proof.
  intros Hall Hbound reads afterReads writes. unfold promiseAll.
  rewrite settle_branches. cbn [fst snd app]. fold reads.
  replace bound with (length reads + (bound - length reads)) by (unfold reads; lia).
  replace (exchangeTask <$> reads) with ((exchangeTask <$> reads) ++ (await <$> []))
    by apply app_nil_r.
  destruct (serve_reads_faulty reads [] (bound - length reads) None w Hall)
    as (w1 & Hidx & Hco1 & Hq1 & Hrun).
  rewrite Hrun. cbn [app]. fold writes.
  destruct (serve_writes_faulty writes (bound - length reads)
              (rejectedBy None (anyStruck (faults w) (length reads))) w1)
    as (w' & Hrun' & Hq' & Hidx' & Hco').
  - unfold writes. apply Forall_fmap, Forall_forall. intros x Hx.
    assert (Hw : wellFormed x).
    { eapply Forall_forall; [exact Hall|].
      clear -Hx. revert Hx. generalize (faults w). unfold reads.
      induction (exchanges bs) as [|y ys IH]; intros fs Hx; simpl in *; [by inversion Hx|].
      destruct (struck fs).
      - right. by eapply IH.
      - apply elem_of_cons in Hx as [->|Hx]; [left | right; by eapply IH]. }
    apply Hw.
  - unfold writes. rewrite length_fmap.
    pose proof (spared_length reads (faults w)). unfold reads in *. lia.
  - exists w'. rewrite Hrun', Hq', Hidx', Hco', Hq1, Hidx, Hco1, rejectedBy_or. done.
Qed.

Lemma exchange_run (x : Exchange) (w : World) :
  wellFormed x ->
  let write := pendingWrite (index w) x in
  run (exchangeTask x) w
  = if struck (faults w)
    then (mkWorld (index w) (tail (faults w)) (trace w ++ [Issued (exRead x)])
                  (console w) (clock w), Rejected StoreError)
    else (mkWorld (if struck (tail (faults w)) then index w else after write (index w))
                  (tail (tail (faults w)))
                  (trace w ++ [Issued (exRead x); Issued write]) (console w) (clock w),
          if struck (tail (faults w)) then Rejected StoreError else Resolved tt).
Proof.
  intros [Hread Hwrite] write.
  destruct (lookup_store _ Hread) as [Hstore Hafter].
  unfold exchangeTask. cbn [await bind run].
  rewrite (perform_request _ w Hstore), Hafter.
  destruct (struck (faults w)); [reflexivity|].
  cbn [bind await run].
  rewrite (perform_request _ _ (write_store _ (Hwrite _))).
  cbn [index faults trace console clock]. rewrite <- app_assoc.
  destruct (struck (tail (faults w))); [reflexivity|].
  cbn [run]. by destruct (result _ _).
Qed.

Lemma branch_all_or_nothing (b : option Exchange) (w : World) :
  Forall wellFormed (exchanges [b]) ->
  let '(w', c) := run (branchTask b) w in
  (c = Resolved tt /\ index w' = index (exec (branchTask b) (calm w)))
  \/ (c = Rejected StoreError /\ index w' = index w).
Proof.
  intros Hwf. destruct b as [x|]; cbn [branchTask].
  - apply Forall_cons in Hwf as [Hwf _].
    unfold exec. rewrite !exchange_run by done. cbn [calm faults struck tail index].
    destruct (struck (faults w)); [by right|].
    destruct (struck (tail (faults w))); [by right | by left].
  - by left.
Qed.

Lemma run_await {R : Type} (op : Op R) (w : World) :
  isStoreRequest op = true ->
  run (await op) w
  = (mkWorld (if struck (faults w) then index w else after op (index w))
             (tail (faults w)) (trace w ++ [Issued op]) (console w) (clock w),
     if struck (faults w) then Rejected StoreError else Resolved (result op (index w))).
Proof.
  intros Hop. unfold await. cbn [run]. rewrite (perform_request op w Hop).
  by destruct (struck (faults w)).
Qed.

Lemma spared_nil {A : Type} (xs : list A) : spared [] xs = xs.
Proof. induction xs as [|x xs IH]; simpl; by rewrite ?IH. Qed.


Lemma indexers_branches (doc : IndexLookupDoc) :
  indexers doc = branchTask <$> indexerBranches doc.
Proof.
  unfold indexers, indexerBranches, indexUrlTerms, indexTitleTerms, indexTerms.
  rewrite !initIndexTerms_exchange. reflexivity.
Qed.

Lemma indexerBranches_split (doc : IndexLookupDoc) :
  exchanges (indexerBranches doc)
  = [domainExchange doc]
    ++ exchanges [termsExchange urlTerms "url/" doc]
    ++ exchanges [termsExchange titleTerms "title/" doc]
    ++ exchanges [termsExchange terms "term/" doc]
    ++ [metaExchange doc].
Proof.
  unfold indexerBranches. rewrite exchanges_cons.
  rewrite (exchanges_cons (termsExchange urlTerms "url/" doc)).
  rewrite (exchanges_cons (termsExchange titleTerms "title/" doc)).
  rewrite (exchanges_cons (termsExchange terms "term/" doc)). reflexivity.
Qed.

Lemma indexerBranches_wellFormed (doc : IndexLookupDoc) :
  Forall wellFormed (exchanges (indexerBranches doc)).
Proof.
  rewrite indexerBranches_split.
  repeat apply Forall_app_2; try apply termsExchange_wellFormed.
  all: by repeat constructor.
Qed.

Lemma indexerBranches_length (doc : IndexLookupDoc) :
  2 <= length (exchanges (indexerBranches doc)) <= 5.
Proof.
  unfold indexerBranches, termsExchange. repeat case_decide; simpl; lia.
Qed.

Lemma indexers_run_faulty (doc : IndexLookupDoc) (w : World) :
  let reads := exchanges (indexerBranches doc) in
  let afterReads := drop (length reads) (faults w) in
  let writes := pendingWrite (index w) <$> spared (faults w) reads in
  exists w',
    run (promiseAll 10 (indexers doc)) w
    = (w', settled (rejectedBy None (anyStruck (faults w) (length reads)
                                     || anyStruck afterReads (length writes))))
    /\ faults w' = drop (length writes) afterReads
    /\ index w' = written (index w) (spared afterReads writes)
    /\ console w' = console w.
Proof.
  rewrite indexers_branches.
  apply promiseAll_exchanges_faulty; [apply indexerBranches_wellFormed|].
  pose proof (indexerBranches_length doc). lia.
Qed.

Lemma indexPage_run_faulty (augment : IndexLookupDoc -> IndexLookupDoc)
    (doc : IndexLookupDoc) (w : World) :
  let aug := augment (newIndexDoc (pages (index w) !! id doc) doc) in
  run (indexPage augment doc) w
  = if struck (faults w)
    then (mkWorld (index w) (tail (faults w))
                  (trace w ++ [Issued (SingleLookup KPage (id doc))])
                  (console w) (clock w), Rejected StoreError)
    else (mkWorld (if struck (tail (faults w)) then index w
                   else withPage aug (id doc) (index w))
                  (tail (tail (faults w)))
                  (trace w ++ [Issued (SingleLookup KPage (id doc));
                               Issued (Put KPage (id doc) aug)])
                  (console w) (clock w),
          if struck (tail (faults w)) then Rejected StoreError else Resolved aug).
Proof.
  intros aug. unfold indexPage, mbind, task_bind.
  rewrite run_bind, run_await by done.
  destruct (struck (faults w)); [reflexivity|].
  cbn [result answer snd index slot].
  rewrite run_bind, run_await by done.
  cbn [index faults trace console clock]. rewrite <- app_assoc.
  destruct (struck (tail (faults w))); reflexivity.
Qed.

Lemma performIndexing_run_faulty (augment : IndexLookupDoc -> IndexLookupDoc)
    (doc : IndexLookupDoc) (w : World) :
  size (terms doc) ≠ 0 ->
  struck (faults w) = false ->
  struck (tail (faults w)) = false ->
  let aug := augment (newIndexDoc (pages (index w) !! id doc) doc) in
  let merged := withPage aug (id doc) (index w) in
  let plan := tail (tail (faults w)) in
  let lookups := exchanges (indexerBranches aug) in
  let writes := pendingWrite merged <$> spared plan lookups in
  let afterLookups := drop (length lookups) plan in
  let hit := anyStruck plan (length lookups) || anyStruck afterLookups (length writes) in
  exists w',
    run (performIndexing augment (Fulfilled (Some doc))) w = (w', Resolved tt)
    /\ index w' = written merged (spared afterLookups writes)
    /\ faults w' = drop (length writes) afterLookups
    /\ console w'
       = console w ++ ConsoleTime "indexing page"
           :: (if hit then [ConsoleError StoreError]
               else [ConsoleTimeEnd "indexing page"; ConsoleLog "indexed" aug]).
Proof.
  intros Hsize Hs1 Hs2 aug merged plan lookups writes afterLookups hit.
  unfold performIndexing. rewrite decide_False by done. rewrite run_tryCatch.
  unfold indexingBody, mbind, task_bind.
  rewrite run_bind, run_console, run_bind, indexPage_run_faulty.
  cbn [index faults trace console clock]. rewrite Hs1, Hs2. fold aug merged plan.
  rewrite run_bind.
  match goal with |- context [run (promiseAll _ _) ?w0] =>
    destruct (indexers_run_faulty aug w0) as (w1 & Hrun & Hq1 & Hidx & Hco) end.
  cbn [index faults console] in Hrun, Hq1, Hidx, Hco.
  fold (indexers aug). rewrite Hrun.
  fold lookups in Hq1, Hidx |- *. fold writes in Hq1, Hidx |- *.
  fold afterLookups in Hq1, Hidx |- *. fold hit.
  destruct hit; cbn [settled rejectedBy].
  - rewrite run_console. eexists. split; [reflexivity|].
    cbn [index faults console]. rewrite Hco, <- app_assoc. done.
  - rewrite run_bind, !run_console. eexists. split; [reflexivity|].
    cbn [index faults console]. rewrite Hco, <- !app_assoc. done.
Qed.




(** A pass whose page merge the store fails stops there. *)
Lemma performIndexing_run_page_fault (augment : IndexLookupDoc -> IndexLookupDoc)
    (doc : IndexLookupDoc) (w : World) :
  size (terms doc) ≠ 0 ->
  struck (faults w) || struck (tail (faults w)) = true ->
  let aug := augment (newIndexDoc (pages (index w) !! id doc) doc) in
  run (performIndexing augment (Fulfilled (Some doc))) w
  = (mkWorld (index w)
       (if struck (faults w) then tail (faults w) else tail (tail (faults w)))
       (trace w ++ if struck (faults w)
                   then [Issued (SingleLookup KPage (id doc))]
                   else [Issued (SingleLookup KPage (id doc));
                         Issued (Put KPage (id doc) aug)])
       (console w ++ [ConsoleTime "indexing page"; ConsoleError StoreError])
       (clock w),
     Resolved tt).
Proof.
  intros Hsize Hstruck aug. unfold performIndexing.
  rewrite decide_False by done. rewrite run_tryCatch.
  unfold indexingBody, mbind, task_bind.
  rewrite run_bind, run_console, run_bind, indexPage_run_faulty.
  cbn [index faults trace console clock]. fold aug.
  destruct (struck (faults w)).
  - rewrite run_console. cbn. by rewrite <- app_assoc.
  - simpl in Hstruck. rewrite Hstruck. rewrite run_console. cbn. by rewrite <- app_assoc.
Qed.


(** ** Failures inside a pass *)



(** With the store failing the lookups of the domain and term indexers,
    the pass resolves with the fault logged; once the other indexers have
    ended the index holds the page record, the url and title postings and
    the visit entry. *)
Example performIndexing_partial :
  let w := mkWorld emptyIndex [false; false; true; false; false; true] [] [] 9%N in
  let atRest := exec (performIndexing noAugment (Fulfilled (Some pageA))) w in
  (run (performIndexing noAugment (Fulfilled (Some pageA))) w).2 = Resolved tt
  /\ dom (postings (index atRest)) = {[ "url/example"; "title/foo" ]}
  /\ pages (index atRest) !! "page/a" = Some pageA
  /\ metas (index atRest) !! "visit/100" = Some "page/a"
  /\ console atRest = [ConsoleTime "indexing page"; ConsoleError StoreError].
Proof. vm_compute. repeat split. Qed.

(** * Further properties

    Behaviour of the module beyond the claims above: the indexers one by
    one, a pass under the faults of the store, the entry points and the
    queue. *)

(** ** The merge on contents *)

(** X1. Merging is idempotent; a second document of the same id replaces
    the entry of the first; documents of different ids can be merged in
    either order; and the ids of the result are the old ones and the
    document's. *)
Theorem reduceTermValue_composes (cur : option IndexTermValue) (d1 d2 : IndexLookupDoc) :
  reduceTermValue (Some (reduceTermValue cur d1)) d1 = reduceTermValue cur d1
  /\ (id d1 = id d2 ->
      reduceTermValue (Some (reduceTermValue cur d1)) d2 = reduceTermValue cur d2)
  /\ (id d1 ≠ id d2 ->
      reduceTermValue (Some (reduceTermValue cur d1)) d2
      = reduceTermValue (Some (reduceTermValue cur d2)) d1)
  /\ dom (reduceTermValue cur d1) = {[ id d1 ]} ∪ dom (default ∅ cur).
Proof.
  split; [apply reduceTermValue_again|]. split; [|split].
  - intros Hid. destruct cur as [m|]; simpl; rewrite Hid.
    + apply insert_insert_eq.
    + by rewrite insert_singleton_eq.
  - intros Hid. destruct cur as [m|]; simpl.
    + by apply insert_insert_ne.
    + rewrite <- !insert_empty. by apply insert_insert_ne.
  - destruct cur as [m|]; simpl.
    + apply dom_insert_L.
    + rewrite dom_singleton_L, dom_empty_L. by rewrite (right_id_L ∅ (∪)).
Qed.

Lemma reduceTermValue_composes_witness :
  id pageA ≠ id pageB
  /\ reduceTermValue (Some (reduceTermValue None pageA)) pageB
     = reduceTermValue (Some (reduceTermValue None pageB)) pageA
  /\ id pageA = id pageA_older
  /\ reduceTermValue (Some (reduceTermValue None pageA)) pageA_older
     = reduceTermValue None pageA_older.
Proof.
  assert (Hne : id pageA ≠ id pageB) by (by vm_compute).
  destruct (reduceTermValue_composes None pageA pageB) as (_ & _ & Hcomm & _).
  destruct (reduceTermValue_composes None pageA pageA_older) as (_ & Hlast & _ & _).
  split; [exact Hne|]. split; [exact (Hcomm Hne)|]. split; [reflexivity|].
  exact (Hlast eq_refl).
Defined.

(** X2. The [Map] that [reduceTermValue] returns holds what the merge on
    contents computes from the content of the [Map] it was given. *)
Theorem reduceTermValue_refines (cur : option Heap.MapRef) (doc : IndexLookupDoc)
    (h : Heap.Objects) :
  (forall m, cur = Some m -> is_Some (h !! m)) ->
  let '(r, h') := Heap.reduceTermValue cur doc h in
  h' !! r = Some (reduceTermValue (cur ≫= fun m => h !! m) doc).
Proof.
  intros Hlive. pose proof (reduceTermValue_content cur doc h Hlive) as Hc.
  by destruct (Heap.reduceTermValue cur doc h).
Qed.

Lemma reduceTermValue_refines_witness :
  (forall m, Some 1%positive = Some m -> is_Some (someObjects !! m))
  /\ let '(r, h') := Heap.reduceTermValue (Some 1%positive) pageA someObjects in
     h' !! r = Some (reduceTermValue (someObjects !! 1%positive) pageA).
Proof.
  assert (Hlive : forall m, Some 1%positive = Some m -> is_Some (someObjects !! m)).
  { intros m [= <-]. by eexists. }
  split; [exact Hlive|].
  exact (reduceTermValue_refines (Some 1%positive) pageA someObjects Hlive).
Defined.

(** ** The indexers one by one *)

Lemma branch_run (b : option Exchange) (w : World) :
  faults w = [] ->
  Forall wellFormed (exchanges [b]) ->
  exists w',
    run (branchTask b) w = (w', Resolved tt)
    /\ faults w' = []
    /\ index w' = written (index w) (pendingWrite (index w) <$> exchanges [b])
    /\ trace w' = trace w ++ match b with
                             | Some x => [Issued (exRead x);
                                          Issued (pendingWrite (index w) x)]
                             | None => []
                             end.
Proof.
  intros Hq Hwf. destruct b as [x|]; cbn [branchTask].
  - apply Forall_cons in Hwf as [Hwf _].
    rewrite exchange_run by done. rewrite Hq. cbn [struck tail].
    eexists. split; [reflexivity|]. done.
  - exists w. rewrite app_nil_r. done.
Qed.

(** X3. On a store without faults, with the terms of the set being keys of
    term values and of nothing else, a term indexer resolves and leaves,
    under every term of the set, the stored value with the document
    merged in, as long as its lookup sees the keys: the set is within
    [termsSizeLimit], or every term carries the prefix of the range
    lookup.  Other keys, page records and timestamp entries are as
    before. *)
Theorem initIndexTerms_posts (termsField : IndexLookupDoc -> gset string)
    (termKey : string) (indexDoc : IndexLookupDoc) (w : World) :
  faults w = [] ->
  inRole KTerm (termsField indexDoc) (index w) ->
  (size (termsField indexDoc) <= termsSizeLimit
   \/ forall k, k ∈ termsField indexDoc -> String.prefix termKey k = true) ->
  let '(w', c) := run (initIndexTerms termsField termKey indexDoc) w in
  c = Resolved tt
  /\ pages (index w') = pages (index w)
  /\ metas (index w') = metas (index w)
  /\ forall k,
       postings (index w') !! k
       = if decide (k ∈ termsField indexDoc)
         then Some (reduceTermValue (postings (index w) !! k) indexDoc)
         else postings (index w) !! k.
Proof.
  intros Hq _ Hview. rewrite initIndexTerms_exchange.
  destruct (branch_run _ w Hq (termsExchange_wellFormed termsField termKey indexDoc))
    as (w' & Hrun & _ & Hidx & _).
  rewrite Hrun, Hidx, termsExchange_written. cbn [pages postings metas].
  split; [done|]. split; [done|]. split; [done|]. intros k.
  rewrite union_lookup_batch, termBatch_lookup. case_decide as Hk; [|done].
  assert (Hseen : seen termKey (termsField indexDoc) k = true).
  { unfold seen. case_decide; [|done]. destruct Hview as [Hle|Hpre]; [lia | by apply Hpre]. }
  by rewrite Hseen.
Qed.

Lemma initIndexTerms_posts_witness :
  faults (boot indexWithA 9%N) = []
  /\ inRole KTerm (terms pageB) (index (boot indexWithA 9%N))
  /\ size (terms pageB) <= termsSizeLimit
  /\ let '(w', c) := run (initIndexTerms terms "term/" pageB) (boot indexWithA 9%N) in
     c = Resolved tt
     /\ pages (index w') = pages indexWithA
     /\ metas (index w') = metas indexWithA
     /\ forall k,
          postings (index w') !! k
          = if decide (k ∈ terms pageB)
            then Some (reduceTermValue (postings indexWithA !! k) pageB)
            else postings indexWithA !! k.
Proof.
  assert (Hsize : size (terms pageB) <= termsSizeLimit).
  { replace (size (terms pageB)) with 2 by (by vm_compute). unfold termsSizeLimit. lia. }
  assert (Hrole : inRole KTerm (terms pageB) (index (boot indexWithA 9%N))) by decided.
  split; [reflexivity|]. split; [exact Hrole|]. split; [exact Hsize|].
  exact (initIndexTerms_posts terms "term/" pageB (boot indexWithA 9%N) eq_refl Hrole
           (or_introl Hsize)).
Defined.

(** X4. With the domain and the terms being keys of term values only, and
    the visit and bookmark keys keys of page ids only: under any fault
    plan the domain indexer, a term indexer and the timestamp indexer
    either resolve with the index they give on a store without faults, or
    are rejected with the store's error and leave the index as it was.
    Nothing is half written. *)
Theorem indexers_all_or_nothing (indexDoc : IndexLookupDoc)
    (termsField : IndexLookupDoc -> gset string) (termKey : string) (w : World) :
  inRole KTerm ({[ domain indexDoc ]} ∪ termsField indexDoc) (index w) ->
  inRole KMeta (timeKeys indexDoc) (index w) ->
  allOrNothing (indexDomain indexDoc) w
  /\ allOrNothing (initIndexTerms termsField termKey indexDoc) w
  /\ allOrNothing (indexMetaTimestamps indexDoc) w.
Proof.
  intros _ _. unfold allOrNothing.
  rewrite indexDomain_exchange, initIndexTerms_exchange, indexMetaTimestamps_exchange.
  split; [|split].
  - apply branch_all_or_nothing. by repeat constructor.
  - apply branch_all_or_nothing, termsExchange_wellFormed.
  - apply branch_all_or_nothing. by repeat constructor.
Qed.

Lemma indexers_all_or_nothing_witness :
  let w := mkWorld indexWithA [false; true] [] [] 9%N in
  inRole KTerm ({[ domain pageB ]} ∪ terms pageB) (index w)
  /\ inRole KMeta (timeKeys pageB) (index w)
  /\ allOrNothing (indexDomain pageB) w
  /\ allOrNothing (initIndexTerms terms "term/" pageB) w
  /\ allOrNothing (indexMetaTimestamps pageB) w.
Proof.
  intros w.
  assert (Hterms : inRole KTerm ({[ domain pageB ]} ∪ terms pageB) (index w)) by decided.
  assert (Htimes : inRole KMeta (timeKeys pageB) (index w)) by decided.
  split; [exact Hterms|]. split; [exact Htimes|].
  exact (indexers_all_or_nothing pageB terms "term/" w Hterms Htimes).
Defined.

(** X5. On a store without faults, with the domain being the key of a term
    value and of nothing else, [indexDomain] resolves with the document
    posted under its domain, the entries of other documents under that
    domain kept, and every other key, page record and timestamp entry as
    before. *)
Theorem indexDomain_posts (indexDoc : IndexLookupDoc) (w : World) :
  faults w = [] ->
  inRole KTerm {[ domain indexDoc ]} (index w) ->
  let '(w', c) := run (indexDomain indexDoc) w in
  c = Resolved tt
  /\ pages (index w') = pages (index w)
  /\ metas (index w') = metas (index w)
  /\ (exists m,
        postings (index w') !! domain indexDoc = Some m
        /\ m !! id indexDoc = Some (mkEntry (latest indexDoc))
        /\ forall other entry,
             other ≠ id indexDoc ->
             (postings (index w) !! domain indexDoc ≫= fun old => old !! other) = Some entry ->
             m !! other = Some entry)
  /\ forall k, k ≠ domain indexDoc -> postings (index w') !! k = postings (index w) !! k.
Proof.
  intros Hq _. rewrite indexDomain_exchange.
  destruct (branch_run (Some (domainExchange indexDoc)) w Hq) as (w' & Hrun & _ & Hidx & _);
    [by repeat constructor|].
  rewrite Hrun, Hidx. cbn.
  split; [done|]. split; [done|]. split; [done|]. split.
  - eexists. split; [apply lookup_insert_eq|]. split; [apply reduceTermValue_lookup_id|].
    intros other entry Hne Hold.
    destruct (postings (index w) !! domain indexDoc) as [old|]; [|done].
    simpl in Hold. by rewrite reduceTermValue_lookup_other.
  - intros k Hne. by rewrite lookup_insert_ne.
Qed.

Lemma indexDomain_posts_witness :
  faults (boot indexWithA 9%N) = []
  /\ inRole KTerm {[ domain pageB ]} (index (boot indexWithA 9%N))
  /\ let '(w', c) := run (indexDomain pageB) (boot indexWithA 9%N) in
     c = Resolved tt
     /\ pages (index w') = pages indexWithA
     /\ metas (index w') = metas indexWithA
     /\ (exists m,
           postings (index w') !! domain pageB = Some m
           /\ m !! id pageB = Some (mkEntry (latest pageB))
           /\ forall other entry,
                other ≠ id pageB ->
                (postings indexWithA !! domain pageB ≫= fun old => old !! other) = Some entry ->
                m !! other = Some entry)
     /\ forall k, k ≠ domain pageB -> postings (index w') !! k = postings indexWithA !! k.
Proof.
  assert (Hrole : inRole KTerm {[ domain pageB ]} (index (boot indexWithA 9%N))) by decided.
  split; [reflexivity|]. split; [exact Hrole|].
  exact (indexDomain_posts pageB (boot indexWithA 9%N) eq_refl Hrole).
Defined.

(** X6. On a store without faults, with the bookmark and visit keys of the
    document being keys of page ids and of nothing else,
    [indexMetaTimestamps] makes every one of them point at the id of the
    document, whatever page id it pointed at before, and leaves other
    keys, page records and postings alone; the batch it commits holds
    exactly the keys that did not point at the id yet. *)
Theorem indexMetaTimestamps_assigns (indexDoc : IndexLookupDoc) (w : World) :
  faults w = [] ->
  let keys := bookmarks indexDoc ∪ visits indexDoc in
  inRole KMeta keys (index w) ->
  let '(w', c) := run (indexMetaTimestamps indexDoc) w in
  c = Resolved tt
  /\ pages (index w') = pages (index w)
  /\ postings (index w') = postings (index w)
  /\ (forall k, metas (index w') !! k
                = if decide (k ∈ keys) then Some (id indexDoc) else metas (index w) !! k)
  /\ exists batch,
       trace w' = trace w ++ [Issued (LookupByKeys KMeta keys);
                              Issued (BatchCommit KMeta batch)]
       /\ forall k v, batch !! k = Some v
                      <-> k ∈ keys /\ metas (index w) !! k ≠ Some (id indexDoc)
                          /\ v = id indexDoc.
Proof.
  intros Hq keys _. rewrite indexMetaTimestamps_exchange.
  destruct (branch_run (Some (metaExchange indexDoc)) w Hq) as (w' & Hrun & _ & Hidx & Htr);
    [by repeat constructor|].
  rewrite Hrun, Hidx. cbn.
  split; [done|]. split; [done|]. split; [done|]. split.
  - intros k. apply (metasAfter_lookup indexDoc (metas (index w)) k).
  - eexists. split; [exact Htr|]. intros k v.
    cbn. rewrite forOf_meta, lookupAll_lookup. fold keys.
    repeat case_decide; split; try done; try tauto.
    + intros [= <-]. done.
    + intros (_ & _ & ->). done.
Qed.

Lemma indexMetaTimestamps_assigns_witness :
  let w := boot indexWithA 9%N in
  faults w = []
  /\ inRole KMeta (bookmarks pageNoTerms ∪ visits pageNoTerms) (index w)
  /\ let keys := bookmarks pageNoTerms ∪ visits pageNoTerms in
     let '(w', c) := run (indexMetaTimestamps pageNoTerms) w in
     c = Resolved tt
     /\ pages (index w') = pages (index w)
     /\ postings (index w') = postings (index w)
     /\ (forall k, metas (index w') !! k
                   = if decide (k ∈ keys) then Some (id pageNoTerms)
                     else metas (index w) !! k)
     /\ exists batch,
          trace w' = trace w ++ [Issued (LookupByKeys KMeta keys);
                                 Issued (BatchCommit KMeta batch)]
          /\ forall k v, batch !! k = Some v
                         <-> k ∈ keys /\ metas (index w) !! k ≠ Some (id pageNoTerms)
                             /\ v = id pageNoTerms.
Proof.
  intros w.
  assert (Hrole : inRole KMeta (bookmarks pageNoTerms ∪ visits pageNoTerms) (index w))
    by decided.
  split; [reflexivity|]. split; [exact Hrole|].
  exact (indexMetaTimestamps_assigns pageNoTerms w eq_refl Hrole).
Defined.

(** ** What a pass writes *)

Lemma terms_size (doc : IndexLookupDoc) : terms doc ≠ ∅ -> size (terms doc) ≠ 0.
Proof. intros Hne Hz. by apply size_empty_iff, leibniz_equiv in Hz. Qed.

Lemma postingsAfter_posted (doc : IndexLookupDoc) (post : gmap string IndexTermValue)
    (k : string) :
  k ∈ postingKeys doc ->
  exists m, postingsAfter doc post !! k = Some m
            /\ m !! id doc = Some (mkEntry (latest doc)).
Proof.
  intros Hk. rewrite postingsAfter_lookup.
  repeat case_decide; try (eexists; split; [reflexivity | apply reduceTermValue_lookup_id]).
  unfold postingKeys in Hk. rewrite !elem_of_union, elem_of_singleton in Hk. tauto.
Qed.

Lemma postingsAfter_frame (doc : IndexLookupDoc) (post : gmap string IndexTermValue)
    (k : string) :
  k ∉ postingKeys doc -> postingsAfter doc post !! k = post !! k.
Proof.
  intros Hk. rewrite postingsAfter_lookup. unfold postingKeys in Hk.
  rewrite !not_elem_of_union, not_elem_of_singleton in Hk.
  repeat case_decide; try done; tauto.
Qed.

Lemma seen_point (termKey : string) (keys : gset string) (k : string) :
  size keys <= termsSizeLimit -> seen termKey keys k = true.
Proof. intros Hle. unfold seen. by rewrite decide_False by lia. Qed.

(** X7. After a pass on a store without faults, with the keys of the merged
    record used in one role each, the record stored under the document's
    id is the augmented merged record, every term, title term, url term
    and domain key of that record posts its id with its [latest], and
    every bookmark and visit key of it points at its id. *)
Theorem performIndexing_posts_merged (augment : IndexLookupDoc -> IndexLookupDoc)
    (indexDoc : IndexLookupDoc) (w : World) :
  faults w = [] ->
  terms indexDoc ≠ ∅ ->
  let aug := augment (newIndexDoc (pages (index w) !! id indexDoc) indexDoc) in
  let w' := exec (performIndexing augment (Fulfilled (Some indexDoc))) w in
  separated (id indexDoc) aug (index w) ->
  pages (index w') !! id indexDoc = Some aug
  /\ (forall k, k ∈ postingKeys aug ->
        exists m, postings (index w') !! k = Some m
                  /\ m !! id aug = Some (mkEntry (latest aug)))
  /\ (forall k, k ∈ bookmarks aug ∪ visits aug -> metas (index w') !! k = Some (id aug)).
Proof.
  intros Hq Hterms aug w' _.
  destruct (performIndexing_run augment indexDoc w Hq (terms_size _ Hterms)) as (_ & _ & Hidx).
  fold aug in Hidx. fold w' in Hidx. rewrite Hidx.
  cbn [indexed withPage pages postings metas]. split; [apply lookup_insert_eq|]. split.
  - intros k Hk. by apply postingsAfter_posted.
  - intros k Hk. rewrite metasAfter_lookup. by rewrite decide_True.
Qed.

(** X8. A pass on a store without faults, with the keys of the merged
    record used in one role each, changes no page record but the
    document's, no posting outside the keys of the merged record and no
    timestamp entry outside its bookmark and visit keys. *)
Theorem performIndexing_frame (augment : IndexLookupDoc -> IndexLookupDoc)
    (indexDoc : IndexLookupDoc) (w : World) :
  faults w = [] ->
  terms indexDoc ≠ ∅ ->
  let aug := augment (newIndexDoc (pages (index w) !! id indexDoc) indexDoc) in
  let w' := exec (performIndexing augment (Fulfilled (Some indexDoc))) w in
  separated (id indexDoc) aug (index w) ->
  (forall p, p ≠ id indexDoc -> pages (index w') !! p = pages (index w) !! p)
  /\ (forall k, k ∉ postingKeys aug -> postings (index w') !! k = postings (index w) !! k)
  /\ (forall k, k ∉ bookmarks aug ∪ visits aug ->
        metas (index w') !! k = metas (index w) !! k).
Proof.
  intros Hq Hterms aug w' _.
  destruct (performIndexing_run augment indexDoc w Hq (terms_size _ Hterms)) as (_ & _ & Hidx).
  fold aug in Hidx. fold w' in Hidx. rewrite Hidx.
  cbn [indexed withPage pages postings metas]. split; [|split].
  - intros p Hp. by rewrite lookup_insert_ne.
  - intros k Hk. by apply postingsAfter_frame.
  - intros k Hk. rewrite metasAfter_lookup. by rewrite decide_False.
Qed.

(** X9. With the keys of the merged record used in one role each and all
    three of its term sets within [termsSizeLimit], a pass on a store
    without faults keeps every entry another document has under any
    posting key. *)
Theorem performIndexing_keeps_other_documents
    (augment : IndexLookupDoc -> IndexLookupDoc) (indexDoc : IndexLookupDoc) (w : World) :
  faults w = [] ->
  terms indexDoc ≠ ∅ ->
  let aug := augment (newIndexDoc (pages (index w) !! id indexDoc) indexDoc) in
  let w' := exec (performIndexing augment (Fulfilled (Some indexDoc))) w in
  separated (id indexDoc) aug (index w) ->
  size (terms aug) <= termsSizeLimit ->
  size (titleTerms aug) <= termsSizeLimit ->
  size (urlTerms aug) <= termsSizeLimit ->
  forall k m other entry,
    postings (index w) !! k = Some m ->
    m !! other = Some entry ->
    other ≠ id aug ->
    exists m', postings (index w') !! k = Some m' /\ m' !! other = Some entry.
Proof.
  intros Hq Hterms aug w' _ Hs1 Hs2 Hs3 k m other entry Hk Hm Hne.
  destruct (performIndexing_run augment indexDoc w Hq (terms_size _ Hterms)) as (_ & _ & Hidx).
  fold aug in Hidx. fold w' in Hidx. rewrite Hidx.
  cbn [indexed withPage pages postings metas]. rewrite postingsAfter_lookup.
  rewrite !seen_point by done. rewrite Hk.
  repeat case_decide;
    try (eexists; split; [reflexivity | by rewrite reduceTermValue_lookup_other]).
  by exists m.
Qed.

Lemma performIndexing_posts_merged_witness :
  let w := boot indexWithA 9%N in
  faults w = []
  /\ terms pageA_older ≠ ∅
  /\ let aug := noAugment (newIndexDoc (pages (index w) !! id pageA_older) pageA_older) in
     let w' := exec (performIndexing noAugment (Fulfilled (Some pageA_older))) w in
     separated (id pageA_older) aug (index w)
     /\ pages (index w') !! id pageA_older = Some aug
     /\ (forall k, k ∈ postingKeys aug ->
           exists m, postings (index w') !! k = Some m
                     /\ m !! id aug = Some (mkEntry (latest aug)))
     /\ (forall k, k ∈ bookmarks aug ∪ visits aug -> metas (index w') !! k = Some (id aug)).
Proof.
  intros w. assert (Hterms : terms pageA_older ≠ ∅) by (by vm_compute).
  split; [reflexivity|]. split; [exact Hterms|].
  assert (Hkeys : separated (id pageA_older)
                    (noAugment (newIndexDoc (pages (index w) !! id pageA_older) pageA_older))
                    (index w)) by decided.
  split; [exact Hkeys|].
  exact (performIndexing_posts_merged noAugment pageA_older w eq_refl Hterms Hkeys).
Defined.

Lemma performIndexing_frame_witness :
  let w := boot indexWithA 9%N in
  faults w = []
  /\ terms pageA_older ≠ ∅
  /\ let aug := noAugment (newIndexDoc (pages (index w) !! id pageA_older) pageA_older) in
     let w' := exec (performIndexing noAugment (Fulfilled (Some pageA_older))) w in
     separated (id pageA_older) aug (index w)
     /\ (forall p, p ≠ id pageA_older -> pages (index w') !! p = pages (index w) !! p)
     /\ (forall k, k ∉ postingKeys aug -> postings (index w') !! k = postings (index w) !! k)
     /\ (forall k, k ∉ bookmarks aug ∪ visits aug ->
           metas (index w') !! k = metas (index w) !! k).
Proof.
  intros w. assert (Hterms : terms pageA_older ≠ ∅) by (by vm_compute).
  split; [reflexivity|]. split; [exact Hterms|].
  assert (Hkeys : separated (id pageA_older)
                    (noAugment (newIndexDoc (pages (index w) !! id pageA_older) pageA_older))
                    (index w)) by decided.
  split; [exact Hkeys|].
  exact (performIndexing_frame noAugment pageA_older w eq_refl Hterms Hkeys).
Defined.

Lemma performIndexing_keeps_other_documents_witness :
  let w := boot indexWithA 9%N in
  let w' := exec (performIndexing noAugment (Fulfilled (Some pageA_older))) w in
  separated (id pageA_older) (newIndexDoc (Some pageA) pageA_older) (index w)
  /\ postings (index w) !! "term/foo" = Some {[ "page/z" := mkEntry 1%N ]}
  /\ exists m', postings (index w') !! "term/foo" = Some m'
                /\ m' !! "page/z" = Some (mkEntry 1%N).
Proof.
  intros w w'.
  assert (Hkeys : separated (id pageA_older) (newIndexDoc (Some pageA) pageA_older) (index w))
    by decided.
  split; [exact Hkeys|]. split; [reflexivity|].
  assert (Hterms : terms pageA_older ≠ ∅) by (by vm_compute).
  assert (Hsmall : forall s : gset string, size s <= 3 -> size s <= termsSizeLimit)
    by (intros s Hs; unfold termsSizeLimit; lia).
  apply (performIndexing_keeps_other_documents noAugment pageA_older w eq_refl Hterms)
    with (m := {[ "page/z" := mkEntry 1%N ]}).
  - exact Hkeys.
  - apply Hsmall. vm_compute. lia.
  - apply Hsmall. vm_compute. lia.
  - apply Hsmall. vm_compute. lia.
  - reflexivity.
  - reflexivity.
  - by vm_compute.
Defined.

(** ** A pass under faults *)

(** X10. The id of the document being the key of a page record and of
    nothing else: when the store fails the lookup or the put of
    [indexPage], the pass stops there.  It resolves, the index is
    unchanged, no indexer issues a request, and the console holds the
    timer and the store's error. *)
Theorem performIndexing_page_fault (augment : IndexLookupDoc -> IndexLookupDoc)
    (indexDoc : IndexLookupDoc) (w : World) :
  terms indexDoc ≠ ∅ ->
  inRole KPage {[ id indexDoc ]} (index w) ->
  struck (faults w) || struck (tail (faults w)) = true ->
  let aug := augment (newIndexDoc (pages (index w) !! id indexDoc) indexDoc) in
  let '(w', c) := run (performIndexing augment (Fulfilled (Some indexDoc))) w in
  c = Resolved tt
  /\ index w' = index w
  /\ console w' = console w ++ [ConsoleTime "indexing page"; ConsoleError StoreError]
  /\ trace w' = trace w ++ if struck (faults w)
                           then [Issued (SingleLookup KPage (id indexDoc))]
                           else [Issued (SingleLookup KPage (id indexDoc));
                                 Issued (Put KPage (id indexDoc) aug)].
Proof.
  intros Hterms _ Hstruck aug.
  rewrite (performIndexing_run_page_fault augment indexDoc w (terms_size _ Hterms) Hstruck).
  done.
Qed.

Lemma performIndexing_page_fault_witness :
  let w := mkWorld indexWithA [false; true] [] [] 9%N in
  terms pageA_older ≠ ∅
  /\ inRole KPage {[ id pageA_older ]} (index w)
  /\ struck (faults w) || struck (tail (faults w)) = true
  /\ let aug := noAugment (newIndexDoc (pages (index w) !! id pageA_older) pageA_older) in
     let '(w', c) := run (performIndexing noAugment (Fulfilled (Some pageA_older))) w in
     c = Resolved tt
     /\ index w' = index w
     /\ console w' = console w ++ [ConsoleTime "indexing page"; ConsoleError StoreError]
     /\ trace w' = trace w ++ if struck (faults w)
                              then [Issued (SingleLookup KPage (id pageA_older))]
                              else [Issued (SingleLookup KPage (id pageA_older));
                                    Issued (Put KPage (id pageA_older) aug)].
Proof.
  intros w. assert (Hterms : terms pageA_older ≠ ∅) by (by vm_compute).
  assert (Hrole : inRole KPage {[ id pageA_older ]} (index w)) by decided.
  split; [exact Hterms|]. split; [exact Hrole|]. split; [reflexivity|].
  exact (performIndexing_page_fault noAugment pageA_older w Hterms Hrole eq_refl).
Defined.

(** X11. A pass whose page merge went through, under any fault plan for the
    indexers, with the keys of the merged record used in one role each:
    the lookups are issued in the order of the array; each one the store
    answers leads to a write computed from the index as the page merge
    left it; the writes the store accepts land, in the same order, and
    none is undone.  The pass resolves, and logs the store's error
    exactly when a request was failed.  The index given is the one at
    rest, when the last indexer has ended; after a failed request the
    pass itself resolves before that, at the first rejection. *)
Theorem performIndexing_partial_failure (augment : IndexLookupDoc -> IndexLookupDoc)
    (indexDoc : IndexLookupDoc) (w : World) :
  terms indexDoc ≠ ∅ ->
  struck (faults w) = false ->
  struck (tail (faults w)) = false ->
  let aug := augment (newIndexDoc (pages (index w) !! id indexDoc) indexDoc) in
  let merged := withPage aug (id indexDoc) (index w) in
  let plan := tail (tail (faults w)) in
  let lookups := exchanges (indexerBranches aug) in
  let writes := pendingWrite merged <$> spared plan lookups in
  let afterLookups := drop (length lookups) plan in
  let hit := anyStruck plan (length lookups) || anyStruck afterLookups (length writes) in
  separated (id indexDoc) aug (index w) ->
  let atRest := exec (performIndexing augment (Fulfilled (Some indexDoc))) w in
  (run (performIndexing augment (Fulfilled (Some indexDoc))) w).2 = Resolved tt
  /\ index atRest = written merged (spared afterLookups writes)
  /\ console atRest
     = console w ++ ConsoleTime "indexing page"
         :: (if hit then [ConsoleError StoreError]
             else [ConsoleTimeEnd "indexing page"; ConsoleLog "indexed" aug]).
Proof.
  intros Hterms Hs1 Hs2 aug merged plan lookups writes afterLookups hit _ atRest.
  destruct (performIndexing_run_faulty augment indexDoc w (terms_size _ Hterms) Hs1 Hs2)
    as (w' & Hrun & Hidx & _ & Hco).
  unfold atRest, exec. rewrite Hrun. done.
Qed.

Lemma termBatches_lookup (doc : IndexLookupDoc) (post : gmap string IndexTermValue)
    (k : string) :
  (termBatch terms "term/" doc post
   ∪ (termBatch titleTerms "title/" doc post ∪ (termBatch urlTerms "url/" doc post ∪ post)))
    !! k
  = if decide (k ∈ terms doc)
    then Some (reduceTermValue (if seen "term/" (terms doc) k then post !! k else None) doc)
    else if decide (k ∈ titleTerms doc)
    then Some (reduceTermValue
                 (if seen "title/" (titleTerms doc) k then post !! k else None) doc)
    else if decide (k ∈ urlTerms doc)
    then Some (reduceTermValue (if seen "url/" (urlTerms doc) k then post !! k else None) doc)
    else post !! k.
Proof.
  rewrite !union_lookup_batch, !termBatch_lookup. by repeat case_decide.
Qed.

Lemma metaExchange_written (doc : IndexLookupDoc) (snapshot i : Index) :
  written i (pendingWrite snapshot <$> [metaExchange doc])
  = mkIndex (pages i) (postings i) (metaBatch doc (metas snapshot) ∪ metas i).
Proof. reflexivity. Qed.

(** X12. With the keys of the merged record used in one role each: when the
    store fails the domain lookup and nothing else, the pass resolves
    with the error logged, and the indexers it leaves under way go on to
    their end.  The index is then at rest with the page record stored,
    every term, title term and url term posted, the timestamp entries
    set, and no posting outside the term keys changed: the domain is not
    posted. *)
Theorem performIndexing_domain_fault (augment : IndexLookupDoc -> IndexLookupDoc)
    (indexDoc : IndexLookupDoc) (w : World) :
  terms indexDoc ≠ ∅ ->
  faults w = [false; false; true] ->
  let aug := augment (newIndexDoc (pages (index w) !! id indexDoc) indexDoc) in
  let termKeys := terms aug ∪ titleTerms aug ∪ urlTerms aug in
  separated (id indexDoc) aug (index w) ->
  let atRest := exec (performIndexing augment (Fulfilled (Some indexDoc))) w in
  (run (performIndexing augment (Fulfilled (Some indexDoc))) w).2 = Resolved tt
  /\ console atRest = console w ++ [ConsoleTime "indexing page"; ConsoleError StoreError]
  /\ pages (index atRest) !! id indexDoc = Some aug
  /\ (forall k, k ∈ termKeys ->
        exists m, postings (index atRest) !! k = Some m
                  /\ m !! id aug = Some (mkEntry (latest aug)))
  /\ (forall k, k ∉ termKeys -> postings (index atRest) !! k = postings (index w) !! k)
  /\ (forall k, k ∈ bookmarks aug ∪ visits aug -> metas (index atRest) !! k = Some (id aug)).
Proof.
  intros Hterms Hfaults aug termKeys _ atRest.
  destruct (performIndexing_run_faulty augment indexDoc w (terms_size _ Hterms))
    as (w' & Hrun & Hidx & _ & Hco); try (by rewrite Hfaults).
  unfold atRest, exec. rewrite Hrun. cbn [fst snd].
  fold aug in Hidx, Hco. rewrite Hfaults in Hidx, Hco.
  cbn [tail] in Hidx, Hco.
  pose proof (indexerBranches_length aug) as Hlen.
  rewrite indexerBranches_split in Hidx, Hco.
  cbn [app spared struck tail length] in Hidx, Hco.
  rewrite spared_nil in Hidx, Hco. cbn [drop anyStruck struck orb] in Hidx, Hco.
  rewrite drop_nil, spared_nil in Hidx.
  rewrite !fmap_app, !written_app, !termsExchange_written, metaExchange_written in Hidx.
  cbn [pages postings metas withPage] in Hidx.
  split; [done|]. split; [done|]. rewrite Hidx. cbn [pages postings metas].
  split; [apply lookup_insert_eq|]. split; [|split].
  - intros k Hk. rewrite termBatches_lookup.
    unfold termKeys in Hk. rewrite !elem_of_union in Hk.
    repeat case_decide;
      try (eexists; split; [reflexivity | apply reduceTermValue_lookup_id]).
    tauto.
  - intros k Hk. rewrite termBatches_lookup.
    unfold termKeys in Hk. rewrite !not_elem_of_union in Hk.
    repeat case_decide; try done; tauto.
  - intros k Hk. fold (metasAfter aug (metas (index w))).
    rewrite metasAfter_lookup. by rewrite decide_True.
Qed.

Lemma performIndexing_partial_failure_witness :
  let w := mkWorld indexWithA [false; false; false; true] [] [] 9%N in
  terms pageA_older ≠ ∅
  /\ struck (faults w) = false
  /\ struck (tail (faults w)) = false
  /\ let aug := noAugment (newIndexDoc (pages (index w) !! id pageA_older) pageA_older) in
     let merged := withPage aug (id pageA_older) (index w) in
     let plan := tail (tail (faults w)) in
     let lookups := exchanges (indexerBranches aug) in
     let writes := pendingWrite merged <$> spared plan lookups in
     let afterLookups := drop (length lookups) plan in
     let hit := anyStruck plan (length lookups) || anyStruck afterLookups (length writes) in
     let atRest := exec (performIndexing noAugment (Fulfilled (Some pageA_older))) w in
     separated (id pageA_older) aug (index w)
     /\ (run (performIndexing noAugment (Fulfilled (Some pageA_older))) w).2 = Resolved tt
     /\ index atRest = written merged (spared afterLookups writes)
     /\ console atRest
        = console w ++ ConsoleTime "indexing page"
            :: (if hit then [ConsoleError StoreError]
                else [ConsoleTimeEnd "indexing page"; ConsoleLog "indexed" aug]).
Proof.
  intros w. assert (Hterms : terms pageA_older ≠ ∅) by (by vm_compute).
  split; [exact Hterms|]. split; [reflexivity|]. split; [reflexivity|].
  assert (Hkeys : separated (id pageA_older)
                    (noAugment (newIndexDoc (pages (index w) !! id pageA_older) pageA_older))
                    (index w)) by decided.
  split; [exact Hkeys|].
  exact (performIndexing_partial_failure noAugment pageA_older w Hterms eq_refl eq_refl Hkeys).
Defined.

Lemma performIndexing_domain_fault_witness :
  let w := mkWorld indexWithA [false; false; true] [] [] 9%N in
  terms pageA_older ≠ ∅
  /\ faults w = [false; false; true]
  /\ let aug := noAugment (newIndexDoc (pages (index w) !! id pageA_older) pageA_older) in
     let termKeys := terms aug ∪ titleTerms aug ∪ urlTerms aug in
     let atRest := exec (performIndexing noAugment (Fulfilled (Some pageA_older))) w in
     separated (id pageA_older) aug (index w)
     /\ (run (performIndexing noAugment (Fulfilled (Some pageA_older))) w).2 = Resolved tt
     /\ console atRest = console w ++ [ConsoleTime "indexing page"; ConsoleError StoreError]
     /\ pages (index atRest) !! id pageA_older = Some aug
     /\ (forall k, k ∈ termKeys ->
           exists m, postings (index atRest) !! k = Some m
                     /\ m !! id aug = Some (mkEntry (latest aug)))
     /\ (forall k, k ∉ termKeys -> postings (index atRest) !! k = postings (index w) !! k)
     /\ (forall k, k ∈ bookmarks aug ∪ visits aug -> metas (index atRest) !! k = Some (id aug)).
Proof.
  intros w. assert (Hterms : terms pageA_older ≠ ∅) by (by vm_compute).
  split; [exact Hterms|]. split; [reflexivity|].
  assert (Hkeys : separated (id pageA_older)
                    (noAugment (newIndexDoc (pages (index w) !! id pageA_older) pageA_older))
                    (index w)) by decided.
  split; [exact Hkeys|].
  exact (performIndexing_domain_fault noAugment pageA_older w Hterms eq_refl Hkeys).
Defined.

(** ** The entry points *)

Lemma performIndexing_resolves (augment : IndexLookupDoc -> IndexLookupDoc)
    (indexDoc : IndexLookupDoc) (w : World) :
  (run (performIndexing augment (Fulfilled (Some indexDoc))) w).2 = Resolved tt.
Proof.
  unfold performIndexing. case_decide; [done|]. rewrite run_tryCatch.
  pose proof (run_within _ 15 w (indexingBody_within augment indexDoc)) as Hend.
  destruct (run (indexingBody augment indexDoc) w) as [w1 [[]|err|]]; simpl in *; done.
Qed.

(** X13. [addPage] rejects exactly when the pipeline rejects, with the
    pipeline's error; with a document from the pipeline it resolves under
    every fault plan of the store. *)
Theorem addPage_signal (IndexRequest : Type)
    (pipeline : IndexRequest -> Outcome IndexLookupDoc)
    (augment : IndexLookupDoc -> IndexLookupDoc) (req : IndexRequest) (w : World) :
  (run (addPage IndexRequest pipeline augment req) w).2
  = match pipeline req with
    | Fulfilled _ => Resolved tt
    | Failed e => Rejected e
    end.
Proof.
  unfold addPage. destruct (pipeline req) as [doc|e]; [|reflexivity].
  apply performIndexing_resolves.
Qed.

Lemma job_alone (t : Task unit) (w : World) :
  runQueue (mkRuntime w [mkJob t 0] [Pending])
  = mkRuntime (exec t w) []
      match (run t w).2 with
      | Resolved _ => [Settled (Fulfilled tt)]
      | Rejected e => [Settled (Failed e)]
      | Unfinished => [Pending]
      end.
Proof.
  unfold runQueue, runJob, exec. cbn [world indexQueue promises foldl jobTask jobPromise].
  by destruct (run t w) as [w' [[]|e|]].
Qed.

(** X14. On an idle queue [addPageConcurrent] followed by the run of the
    queue leaves the world [addPage] leaves, empties the queue, and
    settles the caller's promise as [addPage] settles. *)
Theorem addPageConcurrent_as_addPage (IndexRequest : Type)
    (pipeline : IndexRequest -> Outcome IndexLookupDoc)
    (augment : IndexLookupDoc -> IndexLookupDoc) (req : IndexRequest) (w : World) :
  let '(p, queued) := addPageConcurrent IndexRequest pipeline augment req (idle w) in
  let after := runQueue queued in
  world after = exec (addPage IndexRequest pipeline augment req) w
  /\ indexQueue after = []
  /\ promises after !! p
     = Some (Settled match pipeline req with
                     | Fulfilled _ => Fulfilled tt
                     | Failed e => Failed e
                     end).
Proof.
  unfold addPageConcurrent, newPromise, indexQueue_push, idle, addPage.
  cbn [world indexQueue promises length app].
  destruct (pipeline req) as [doc|e]; cbn [promised].
  - rewrite job_alone. rewrite performIndexing_resolves. done.
  - unfold reject, settlePromise. cbn [lookup list_lookup insert list_insert].
    unfold runQueue, runJob. cbn. done.
Qed.

Lemma runJob_run (rt : Runtime) (job : Job) (w' : World) (c : Completion unit) :
  run (jobTask job) (world rt) = (w', c) ->
  runJob rt job
  = mkRuntime w' (indexQueue rt)
      match c with
      | Resolved _ => resolve (jobPromise job) (promises rt)
      | Rejected e => reject (jobPromise job) e (promises rt)
      | Unfinished => promises rt
      end.
Proof. intros Hrun. unfold runJob. by rewrite Hrun. Qed.

(** X15. Two pages submitted through the queue on a store without faults,
    each with the keys of its merged record used in one role each when
    its pass starts, are indexed one after the other: both promises are
    fulfilled, and a term both merged records carry, seen by the lookup
    of the second pass, ends up posting both ids, each with its own
    [latest]. *)
Theorem addPageConcurrent_serialized (IndexRequest : Type)
    (pipeline : IndexRequest -> Outcome IndexLookupDoc)
    (augment : IndexLookupDoc -> IndexLookupDoc)
    (req1 req2 : IndexRequest) (doc1 doc2 : IndexLookupDoc) (term : string) (w : World) :
  faults w = [] ->
  pipeline req1 = Fulfilled doc1 ->
  pipeline req2 = Fulfilled doc2 ->
  terms doc1 ≠ ∅ ->
  terms doc2 ≠ ∅ ->
  let first := exec (performIndexing augment (Fulfilled (Some doc1))) w in
  let aug1 := augment (newIndexDoc (pages (index w) !! id doc1) doc1) in
  let aug2 := augment (newIndexDoc (pages (index first) !! id doc2) doc2) in
  separated (id doc1) aug1 (index w) ->
  separated (id doc2) aug2 (index first) ->
  id aug1 ≠ id aug2 ->
  term ∈ terms aug1 ->
  term ∈ terms aug2 ->
  (size (terms aug2) <= termsSizeLimit \/ String.prefix "term/" term = true) ->
  let '(p1, queued1) := addPageConcurrent IndexRequest pipeline augment req1 (idle w) in
  let '(p2, queued2) := addPageConcurrent IndexRequest pipeline augment req2 queued1 in
  let after := runQueue queued2 in
  promises after !! p1 = Some (Settled (Fulfilled tt))
  /\ promises after !! p2 = Some (Settled (Fulfilled tt))
  /\ world after = exec (performIndexing augment (Fulfilled (Some doc2))) first
  /\ exists m,
       postings (index (world after)) !! term = Some m
       /\ m !! id aug1 = Some (mkEntry (latest aug1))
       /\ m !! id aug2 = Some (mkEntry (latest aug2)).
Proof.
  intros Hq Hreq1 Hreq2 Hterms1 Hterms2 first aug1 aug2 _ _ Hids Hin1 Hin2 Hview.
  destruct (performIndexing_run augment doc1 w Hq (terms_size _ Hterms1))
    as (Hres1 & Hq1 & Hidx1).
  fold first in Hq1, Hidx1. fold aug1 in Hidx1.
  destruct (performIndexing_run augment doc2 first Hq1 (terms_size _ Hterms2))
    as (Hres2 & _ & Hidx2).
  fold aug2 in Hidx2.
  set (second := exec (performIndexing augment (Fulfilled (Some doc2))) first) in *.
  assert (Hrun1 : run (performIndexing augment (Fulfilled (Some doc1))) w
                  = (first, Resolved tt)).
  { unfold first, exec. destruct (run _ w) as [w1 c1]. simpl in *. by subst. }
  assert (Hrun2 : run (performIndexing augment (Fulfilled (Some doc2))) first
                  = (second, Resolved tt)).
  { unfold second, exec. destruct (run _ first) as [w2 c2]. simpl in *. by subst. }
  unfold addPageConcurrent, newPromise, indexQueue_push, idle.
  cbn [world indexQueue promises length app]. rewrite Hreq1, Hreq2.
  cbn [world indexQueue promises length app].
  unfold runQueue. cbn [world indexQueue promises foldl].
  rewrite (runJob_run (mkRuntime w [] [Pending; Pending]) _ first (Resolved tt))
    by exact Hrun1.
  rewrite (runJob_run _ _ second (Resolved tt)) by exact Hrun2.
  cbn [world promises jobPromise].
  split; [reflexivity|]. split; [reflexivity|]. split; [reflexivity|].
  rewrite Hidx2. cbn [indexed withPage postings]. rewrite postingsAfter_lookup.
  rewrite decide_True by done.
  assert (Hseen : seen "term/" (terms aug2) term = true).
  { unfold seen. case_decide; [|done]. destruct Hview; [lia | done]. }
  rewrite Hseen, Hidx1. cbn [indexed withPage postings].
  rewrite postingsAfter_lookup. rewrite decide_True by done.
  eexists. split; [reflexivity|]. split.
  - rewrite reduceTermValue_lookup_other by done. apply reduceTermValue_lookup_id.
  - apply reduceTermValue_lookup_id.
Qed.

Lemma addPageConcurrent_serialized_witness :
  let w := boot indexWithA 9%N in
  let '(p1, queued1) := addPageConcurrent bool twoPages noAugment true (idle w) in
  let '(p2, queued2) := addPageConcurrent bool twoPages noAugment false queued1 in
  let after := runQueue queued2 in
  promises after !! p1 = Some (Settled (Fulfilled tt))
  /\ promises after !! p2 = Some (Settled (Fulfilled tt))
  /\ world after
     = exec (performIndexing noAugment (Fulfilled (Some pageB)))
            (exec (performIndexing noAugment (Fulfilled (Some pageA))) w)
  /\ exists m,
       postings (index (world after)) !! "term/bar" = Some m
       /\ m !! "page/a" = Some (mkEntry 100%N)
       /\ m !! "page/b" = Some (mkEntry 200%N).
Proof.
  intros w.
  assert (Hsize : size (terms pageB) <= termsSizeLimit).
  { replace (size (terms pageB)) with 2 by (by vm_compute). unfold termsSizeLimit. lia. }
  apply (addPageConcurrent_serialized bool twoPages noAugment true false pageA pageB
           "term/bar" w);
    first [ reflexivity | by vm_compute | decided | (left; exact Hsize) ].
Defined.

(** ** Bookmarks *)

Lemma addBookmark_run_faulty (prefix pageId : string) (timestamp : option Timestamp)
    (w : World) (doc : IndexLookupDoc) :
  struck (faults w) = false ->
  pages (index w) !! pageId = Some doc ->
  let bookmarkKey := prefix +:+ pretty (default (clock w) timestamp) in
  let hit1 := struck (tail (faults w)) in
  let hit2 := struck (tail (tail (faults w))) in
  exists w',
    run (addBookmark prefix pageId timestamp) w
    = (w', if hit1 || hit2 then Rejected StoreError else Resolved tt)
    /\ postings (index w') = postings (index w)
    /\ metas (index w')
       = (if hit1 then metas (index w) else <[bookmarkKey := pageId]> (metas (index w)))
    /\ pages (index w')
       = (if hit1 || hit2 then pages (index w)
          else <[pageId := bookmarked doc bookmarkKey]> (pages (index w))).
Proof.
  intros Hs Hdoc bookmarkKey hit1 hit2.
  assert (Hnow : forall (f : Timestamp -> Task unit),
            run (bind match timestamp with
                      | Some t => Return t
                      | None => invoke DateNow
                      end f) w = run (f (default (clock w) timestamp)) w).
  { intros f. destruct timestamp as [t|]; reflexivity. }
  assert (Hrun : run (addBookmark prefix pageId timestamp) w
            = run (bind (await (Put KMeta bookmarkKey pageId))
                     (fun _ => await (Put KPage pageId (bookmarked doc bookmarkKey))))
                  (mkWorld (index w) (tail (faults w))
                     (trace w ++ [Issued (SingleLookup KPage pageId)])
                     (console w) (clock w))).
  { unfold addBookmark, mbind, task_bind. rewrite Hnow.
    rewrite run_bind, run_await by done. rewrite Hs.
    cbn [result after answer fst snd index slot Val]. by rewrite Hdoc. }
  unfold addBookmark, mbind, task_bind in Hrun |- *. rewrite Hrun.
  rewrite run_bind, run_await by done. cbn [index faults trace console clock].
  fold hit1.
  destruct hit1.
  - eexists. split; [reflexivity|]. done.
  - rewrite run_await by done. cbn [index faults trace console clock]. fold hit2.
    destruct hit2; eexists; (split; [reflexivity|]); done.
Qed.

(** X16. On a store without faults, with a record under [pageId], a
    timestamp the bookmark key prints in decimal, and the page id and the
    bookmark key used in one role each, [addBookmark] resolves having
    written the bookmark key, built from the given timestamp or else from
    the clock, to point at [pageId], and having added the key to the
    bookmarks of the record; nothing else changes. *)
Theorem addBookmark_writes (prefix pageId : string) (timestamp : option Timestamp)
    (w : World) (doc : IndexLookupDoc) :
  faults w = [] ->
  pages (index w) !! pageId = Some doc ->
  isSafeInteger (default (clock w) timestamp) ->
  let bookmarkKey := prefix +:+ pretty (default (clock w) timestamp) in
  bookmarkSeparated pageId bookmarkKey (index w) ->
  let '(w', c) := run (addBookmark prefix pageId timestamp) w in
  c = Resolved tt
  /\ postings (index w') = postings (index w)
  /\ metas (index w') = <[bookmarkKey := pageId]> (metas (index w))
  /\ pages (index w') = <[pageId := bookmarked doc bookmarkKey]> (pages (index w)).
Proof.
  intros Hq Hdoc _ bookmarkKey _.
  destruct (addBookmark_run_faulty prefix pageId timestamp w doc) as (w' & Hrun & Hrest);
    [by rewrite Hq | done |].
  rewrite Hq in Hrun, Hrest. cbn [tail struck orb] in Hrun, Hrest.
  rewrite Hrun. done.
Qed.

Lemma addBookmark_writes_witness :
  let w := boot indexWithA 1000%N in
  faults w = []
  /\ pages (index w) !! "page/a" = Some pageA
  /\ isSafeInteger (clock w)
  /\ bookmarkSeparated "page/a" "bookmark/1000" (index w)
  /\ let bookmarkKey := "bookmark/" +:+ pretty (default (clock w) None) in
     let '(w', c) := run (addBookmark "bookmark/" "page/a" None) w in
     c = Resolved tt
     /\ postings (index w') = postings (index w)
     /\ metas (index w') = <[bookmarkKey := "page/a"]> (metas (index w))
     /\ pages (index w') = <[ "page/a" := bookmarked pageA bookmarkKey]> (pages (index w)).
Proof.
  intros w.
  assert (Hsafe : isSafeInteger (clock w)) by (by vm_compute).
  assert (Hkeys : bookmarkSeparated "page/a" "bookmark/1000" (index w)) by decided.
  split; [reflexivity|]. split; [reflexivity|]. split; [exact Hsafe|]. split; [exact Hkeys|].
  exact (addBookmark_writes "bookmark/" "page/a" None w pageA eq_refl eq_refl Hsafe Hkeys).
Defined.

(** X17. With a timestamp the bookmark key prints in decimal, and the page
    id and the bookmark key used in one role each: when the store fails
    the second put of [addBookmark], the call is rejected with the
    bookmark entry written and the record unchanged.  The first put is
    not undone. *)
Theorem addBookmark_no_rollback (prefix pageId : string) (timestamp : option Timestamp)
    (w : World) (doc : IndexLookupDoc) (rest : list bool) :
  faults w = false :: false :: true :: rest ->
  pages (index w) !! pageId = Some doc ->
  isSafeInteger (default (clock w) timestamp) ->
  let bookmarkKey := prefix +:+ pretty (default (clock w) timestamp) in
  bookmarkSeparated pageId bookmarkKey (index w) ->
  let '(w', c) := run (addBookmark prefix pageId timestamp) w in
  c = Rejected StoreError
  /\ metas (index w') = <[bookmarkKey := pageId]> (metas (index w))
  /\ pages (index w') = pages (index w)
  /\ postings (index w') = postings (index w).
Proof.
  intros Hfaults Hdoc _ bookmarkKey _.
  destruct (addBookmark_run_faulty prefix pageId timestamp w doc) as (w' & Hrun & Hrest);
    [by rewrite Hfaults | done |].
  rewrite Hfaults in Hrun, Hrest. cbn [tail struck orb] in Hrun, Hrest.
  rewrite Hrun. tauto.
Qed.

Lemma addBookmark_no_rollback_witness :
  let w := mkWorld indexWithA [false; false; true] [] [] 1000%N in
  faults w = false :: false :: true :: []
  /\ pages (index w) !! "page/a" = Some pageA
  /\ isSafeInteger 42
  /\ bookmarkSeparated "page/a" "bookmark/42" (index w)
  /\ let bookmarkKey := "bookmark/" +:+ pretty (default (clock w) (Some 42%N)) in
     let '(w', c) := run (addBookmark "bookmark/" "page/a" (Some 42%N)) w in
     c = Rejected StoreError
     /\ metas (index w') = <[bookmarkKey := "page/a"]> (metas (index w))
     /\ pages (index w') = pages (index w)
     /\ postings (index w') = postings (index w).
Proof.
  intros w.
  assert (Hsafe : isSafeInteger 42) by (by vm_compute).
  assert (Hkeys : bookmarkSeparated "page/a" "bookmark/42" (index w)) by decided.
  split; [reflexivity|]. split; [reflexivity|]. split; [exact Hsafe|]. split; [exact Hkeys|].
  exact (addBookmark_no_rollback "bookmark/" "page/a" (Some 42%N) w pageA [] eq_refl eq_refl
           Hsafe Hkeys).
Defined.

Lemma addBookmark_within (prefix pageId : string) (timestamp : option Timestamp) :
  within 4 (addBookmark prefix pageId timestamp).
Proof.
  unfold addBookmark, mbind, task_bind.
  apply (within_bind _ _ 1 3).
  - destruct timestamp; [exact I | apply within_await].
  - intros t. apply (within_bind _ _ 1 2); [apply within_await|].
    intros [doc|]; [|exact I].
    apply (within_bind _ _ 1 1); [apply within_await|]. intros _. apply within_await.
Qed.

Lemma addBookmark_lookup (prefix pageId : string) (timestamp : option Timestamp)
    (w : World) :
  (struck (faults w) = true \/ pages (index w) !! pageId = None) ->
  run (addBookmark prefix pageId timestamp) w
  = (mkWorld (index w) (tail (faults w))
             (trace w ++ [Issued (SingleLookup KPage pageId)]) (console w) (clock w),
     Rejected (if struck (faults w) then StoreError else notFound pageId)).
Proof.
  intros Hcase.
  assert (Hnow : forall (f : Timestamp -> Task unit),
            run (bind match timestamp with
                      | Some t => Return t
                      | None => invoke DateNow
                      end f) w = run (f (default (clock w) timestamp)) w).
  { intros f. destruct timestamp as [t|]; reflexivity. }
  unfold addBookmark, mbind, task_bind. rewrite Hnow.
  rewrite run_bind, run_await by done.
  destruct (struck (faults w)) eqn:Hs; [reflexivity|].
  destruct Hcase as [?|Hnone]; [done|].
  cbn [result after answer fst snd index slot Val]. by rewrite Hnone.
Qed.

(** X18. [addBookmarkConcurrent] on an idle queue leaves the world
    [addBookmark(pageId)] leaves and hands its outcome to the caller:
    with nothing stored under [pageId] the caller's promise is rejected
    with the "no document" error, after a failed lookup with the store's
    error, the index untouched in both cases. *)
Theorem addBookmarkConcurrent_signal (prefix pageId : string)
    (timestamp : option Timestamp) (w : World) :
  let '(p, queued) := addBookmarkConcurrent prefix pageId timestamp (idle w) in
  let after := runQueue queued in
  world after = exec (addBookmark prefix pageId None) w
  /\ indexQueue after = []
  /\ (forall e, (run (addBookmark prefix pageId None) w).2 = Rejected e ->
        promises after !! p = Some (Settled (Failed e)))
  /\ ((run (addBookmark prefix pageId None) w).2 = Resolved tt ->
      promises after !! p = Some (Settled (Fulfilled tt)))
  /\ (keySpace (index w) !! pageId = None -> struck (faults w) = false ->
      promises after !! p = Some (Settled (Failed (notFound pageId)))
      /\ index (world after) = index w)
  /\ (struck (faults w) = true ->
      promises after !! p = Some (Settled (Failed StoreError))
      /\ index (world after) = index w).
Proof.
  unfold addBookmarkConcurrent, newPromise, indexQueue_push, idle.
  cbn [world indexQueue promises length app]. rewrite job_alone.
  cbn [world indexQueue promises].
  split; [done|]. split; [done|]. split; [|split; [|split]].
  - intros e He. by rewrite He.
  - intros Hr. by rewrite Hr.
  - intros Hnone Hs. apply keySpace_None in Hnone as (Hnone & _ & _). unfold exec.
    rewrite addBookmark_lookup by (by right). by rewrite Hs.
  - intros Hs. unfold exec.
    rewrite addBookmark_lookup by (by left). by rewrite Hs.
Qed.

Lemma addBookmarkConcurrent_signal_witness :
  let w := boot indexWithA 1000%N in
  let '(p, queued) := addBookmarkConcurrent "bookmark/" "page/none" (Some 42%N) (idle w) in
  let after := runQueue queued in
  keySpace (index w) !! "page/none" = None
  /\ promises after !! p = Some (Settled (Failed (notFound "page/none")))
  /\ index (world after) = index w.
Proof.
  intros w.
  pose proof (addBookmarkConcurrent_signal "bookmark/" "page/none" (Some 42%N) w) as H.
  cbv zeta in H.
  destruct (addBookmarkConcurrent "bookmark/" "page/none" (Some 42%N) (idle w))
    as [p queued] eqn:Hcall.
  destruct H as (_ & _ & _ & _ & Hmissing & _).
  split; [reflexivity|]. exact (Hmissing eq_refl eq_refl).
Defined.
